(** * greyhound session handler: the PDAL bindings

    A shallow embedding of [session-handler/addon/pdal-bindings.cpp]: the
    binding object, its read-command registry, the three asynchronous
    operations (create/parse, serialize, read) with their background and
    completion phases, the synchronous queries and [destroy].

    The binding code is stateful and throws; it is written here in a small
    state-and-exception monad over a [World] that holds the process heap, the
    binding object, the libuv work queue, the calls made into JavaScript and
    the libc random generator. *)

From Stdlib Require Import ZArith String Ascii List Lia.
From stdpp Require Import base option gmap strings list fin_maps.

Local Open Scope Z_scope.
Local Open Scope string_scope.
Local Open Scope list_scope.

(** ** JavaScript values, as far as the bindings inspect them *)

#[warnings="-register-all"]
Inductive Value : Type :=
| Undefined
| Null
| Str (s : string)
| Int (z : Z)                 (* Integer::New: a 32-bit signed integer *)
| Number (bits : Z)           (* a double, kept as its bit pattern *)
| Function (f : nat)          (* a function object, by identity *)
| Array (elems : list Value)
| Buffer (bytes : list Z).    (* node::Buffer *)

Definition IsUndefined (v : Value) : bool :=
  match v with Undefined => true | _ => false end.
Definition IsString (v : Value) : bool :=
  match v with Str _ => true | _ => false end.
Definition IsFunction (v : Value) : bool :=
  match v with Function _ => true | _ => false end.
Definition IsArray (v : Value) : bool :=
  match v with Array _ => true | _ => false end.

(** A [std::string] built from a [const char*] takes the characters before
    the first NUL and drops the rest. *)
Fixpoint c_str (s : string) : string :=
  match s with
  | EmptyString => EmptyString
  | String c s' =>
      if Ascii.eqb c Ascii.zero then EmptyString else String c (c_str s')
  end.

(** A [std::string] made of [*v8::String::Utf8Value(v->ToString())]: the characters
    reach the [std::string] through a [char*], so a string holding a NUL
    arrives cut before it.  The bindings call it on strings only. *)
Definition Utf8Value (v : Value) : string :=
  match v with Str s => c_str s | _ => "" end.

(** [p] is [s] cut before its first NUL: the whole of [s] when [s] holds
    none. *)
Definition no_nul (s : string) : Prop := ~ In Ascii.zero (list_ascii_of_string s).

Definition cut_at_nul (p s : string) : Prop :=
  no_nul p /\ (s = p \/ exists rest, s = p +:+ String Ascii.zero rest).

(** [args[i]]: v8 hands out [undefined] for a missing argument. *)
Definition arg (args : list Value) (i : nat) : Value := nth i args Undefined.

(** [Integer::New] takes an [int32_t]: wider values wrap. *)
Definition to_int32 (z : Z) : Z := (z + 2 ^ 31) mod 2 ^ 32 - 2 ^ 31.

(** ** C++ exceptions and the ways a call can end *)

Inductive Exn : Type :=
| runtime_error (what : string)
| bad_alloc
| other_exception.

(** A call returns, throws, or has no defined behaviour at all (a null
    pointer is dereferenced): the last one is not an exception and no
    [catch] sees it. *)
Inductive Outcome (A : Type) : Type :=
| Returned (a : A)
| Thrown (e : Exn)
| Crashed.
Arguments Returned {A} a.
Arguments Thrown {A} e.
Arguments Crashed {A}.

(** ** The collaborators declared in headers outside this file *)

Module PdalSession.
(** Class PdalSession is declared in pdal-session.hpp, which is not part of
    the sources.  The bindings only call its methods, so a session is
    represented by what each query does in the session's current state,
    whatever that is: return a value, throw, or worse. *)
Record t : Type := {
  getNumPoints : Outcome Z;
  getSchema : Outcome string;
  getStats : Outcome string;
  getSrs : Outcome string;
  getFills : Outcome (list Z)
}.
End PdalSession.

(** RasterMeta (read-command.hpp): the four doubles the bindings read, as
    bit patterns, and the values its methods [xNum()] and [yNum()] return. *)
Record RasterMeta : Type := {
  xBegin : Z; xStep : Z; xNum : Z;
  yBegin : Z; yStep : Z; yNum : Z
}.

(** A persistent handle to a JavaScript function. *)
Record Persistent : Type := { handle : nat; target : nat }.

(** The fields of a ReadCommand the bindings reach through its accessors.
    [rasterMeta] is present exactly for a ReadCommandRastered. *)
Record ReadCommand : Type := {
  pdalSession : option nat;
  readId : string;
  callback : Persistent;
  rasterMeta : option RasterMeta;
  errMsg : string;
  numPoints : Z;
  numBytes : Z;
  data : list Z
}.

Definition rasterize (c : ReadCommand) : bool :=
  match rasterMeta c with Some _ => true | None => false end.

Definition set_errMsg (msg : string) (c : ReadCommand) : ReadCommand :=
  {| pdalSession := pdalSession c; readId := readId c; callback := callback c;
     rasterMeta := rasterMeta c; errMsg := msg; numPoints := numPoints c;
     numBytes := numBytes c; data := data c |}.

(** The payload of a create or parse request, with the fields its
    constructor is given here and the error slot the workers write. *)
Module CreateData.
Record t : Type := {
  pdalSession : option nat;
  pipelineId : string;
  pipeline : string;
  serialPaths : list string;
  execute : bool;
  callback : Persistent;
  errMsg : string
}.
Definition set_errMsg (msg : string) (d : t) : t :=
  {| pdalSession := pdalSession d; pipelineId := pipelineId d;
     pipeline := pipeline d; serialPaths := serialPaths d;
     execute := execute d; callback := callback d; errMsg := msg |}.
End CreateData.

(** The payload of a serialize request. *)
Module SerializeData.
Record t : Type := {
  pdalSession : option nat;
  paths : list string;
  callback : Persistent;
  errMsg : string
}.
Definition set_errMsg (msg : string) (d : t) : t :=
  {| pdalSession := pdalSession d; paths := paths d;
     callback := callback d; errMsg := msg |}.
End SerializeData.

(** What [req->data] of a queued [uv_work_t] points to.  A read request
    carries the address of its command, which the registry holds too. *)
Inductive Task : Type :=
| CreateTask (d : CreateData.t)
| SerializeTask (d : SerializeData.t)
| ReadTask (readCommand : nat).

(** Calls into JavaScript and handle disposals, in the order they happen. *)
Inductive Event : Type :=
| Call (fn : nat) (argv : list Value)
| Dispose (h : nat).

(** ** The world *)

Record World : Type := {
  (* heap: shared_ptr control blocks (use count, object) and read commands *)
  sessions : gmap nat (nat * PdalSession.t);
  commands : gmap nat ReadCommand;
  next_addr : nat;
  (* the PdalBindings object *)
  m_pdalSession : option nat;
  m_readCommands : gmap string nat;
  (* whether allocating a node for m_readCommands fails *)
  registry_alloc_fails : bool;
  (* libuv *)
  work_queue : list Task;
  (* v8 *)
  events : list Event;
  next_handle : nat;
  (* libc rand(): the sequence it yields and how far it has been consumed *)
  rand_seq : nat -> Z;
  rand_pos : nat
}.

Definition with_sessions (f : gmap nat (nat * PdalSession.t) -> gmap nat (nat * PdalSession.t))
    (w : World) : World :=
  {| sessions := f (sessions w); commands := commands w; next_addr := next_addr w;
     m_pdalSession := m_pdalSession w; m_readCommands := m_readCommands w;
     registry_alloc_fails := registry_alloc_fails w; work_queue := work_queue w;
     events := events w; next_handle := next_handle w;
     rand_seq := rand_seq w; rand_pos := rand_pos w |}.

Definition with_commands (f : gmap nat ReadCommand -> gmap nat ReadCommand)
    (w : World) : World :=
  {| sessions := sessions w; commands := f (commands w); next_addr := next_addr w;
     m_pdalSession := m_pdalSession w; m_readCommands := m_readCommands w;
     registry_alloc_fails := registry_alloc_fails w; work_queue := work_queue w;
     events := events w; next_handle := next_handle w;
     rand_seq := rand_seq w; rand_pos := rand_pos w |}.

Definition with_next_addr (n : nat) (w : World) : World :=
  {| sessions := sessions w; commands := commands w; next_addr := n;
     m_pdalSession := m_pdalSession w; m_readCommands := m_readCommands w;
     registry_alloc_fails := registry_alloc_fails w; work_queue := work_queue w;
     events := events w; next_handle := next_handle w;
     rand_seq := rand_seq w; rand_pos := rand_pos w |}.

Definition with_m_pdalSession (p : option nat) (w : World) : World :=
  {| sessions := sessions w; commands := commands w; next_addr := next_addr w;
     m_pdalSession := p; m_readCommands := m_readCommands w;
     registry_alloc_fails := registry_alloc_fails w; work_queue := work_queue w;
     events := events w; next_handle := next_handle w;
     rand_seq := rand_seq w; rand_pos := rand_pos w |}.

Definition with_m_readCommands (f : gmap string nat -> gmap string nat)
    (w : World) : World :=
  {| sessions := sessions w; commands := commands w; next_addr := next_addr w;
     m_pdalSession := m_pdalSession w; m_readCommands := f (m_readCommands w);
     registry_alloc_fails := registry_alloc_fails w; work_queue := work_queue w;
     events := events w; next_handle := next_handle w;
     rand_seq := rand_seq w; rand_pos := rand_pos w |}.

Definition with_work_queue (f : list Task -> list Task) (w : World) : World :=
  {| sessions := sessions w; commands := commands w; next_addr := next_addr w;
     m_pdalSession := m_pdalSession w; m_readCommands := m_readCommands w;
     registry_alloc_fails := registry_alloc_fails w; work_queue := f (work_queue w);
     events := events w; next_handle := next_handle w;
     rand_seq := rand_seq w; rand_pos := rand_pos w |}.

Definition with_events (f : list Event -> list Event) (w : World) : World :=
  {| sessions := sessions w; commands := commands w; next_addr := next_addr w;
     m_pdalSession := m_pdalSession w; m_readCommands := m_readCommands w;
     registry_alloc_fails := registry_alloc_fails w; work_queue := work_queue w;
     events := f (events w); next_handle := next_handle w;
     rand_seq := rand_seq w; rand_pos := rand_pos w |}.

Definition with_next_handle (n : nat) (w : World) : World :=
  {| sessions := sessions w; commands := commands w; next_addr := next_addr w;
     m_pdalSession := m_pdalSession w; m_readCommands := m_readCommands w;
     registry_alloc_fails := registry_alloc_fails w; work_queue := work_queue w;
     events := events w; next_handle := n;
     rand_seq := rand_seq w; rand_pos := rand_pos w |}.

Definition with_rand_pos (n : nat) (w : World) : World :=
  {| sessions := sessions w; commands := commands w; next_addr := next_addr w;
     m_pdalSession := m_pdalSession w; m_readCommands := m_readCommands w;
     registry_alloc_fails := registry_alloc_fails w; work_queue := work_queue w;
     events := events w; next_handle := next_handle w;
     rand_seq := rand_seq w; rand_pos := n |}.

(** ** The monad of the binding code *)

Definition M (A : Type) : Type := World -> Outcome A * World.

#[global] Instance M_ret : MRet M := fun A a w => (Returned a, w).

#[global] Instance M_bind : MBind M := fun A B k m w =>
  match m w with
  | (Returned a, w') => k a w'
  | (Thrown e, w') => (Thrown e, w')
  | (Crashed, w') => (Crashed, w')
  end.

Definition throw {A : Type} (e : Exn) : M A := fun w => (Thrown e, w).
Definition crash {A : Type} : M A := fun w => (Crashed, w).

(** [try { body } catch (...) { handler }], the handler seeing the exception. *)
Definition try_catch {A : Type} (body : M A) (handler : Exn -> M A) : M A :=
  fun w =>
    match body w with
    | (Thrown e, w') => handler e w'
    | r => r
    end.

Definition gets {A : Type} (f : World -> A) : M A := fun w => (Returned (f w), w).
Definition modify (f : World -> World) : M unit := fun w => (Returned tt, f w).

(** A call whose outcome is already known (a session query). *)
Definition lift {A : Type} (o : Outcome A) : M A := fun w => (o, w).

(** ** Anonymous namespace: constants and read identifiers *)

Definition chunkSize : Z := 65536.
Definition readIdSize : nat := 24.
Definition hexValues : string := "0123456789ABCDEF".

(** [s[i]] on a [std::string], as an rvalue. *)
Definition string_at (s : string) (i : nat) : ascii :=
  match String.get i s with Some c => c | None => zero end.

(** [s[i] = c]. *)
Definition string_set (s : string) (i : nat) (c : ascii) : string :=
  string_of_list_ascii (<[i:=c]> (list_ascii_of_string s)).

(** [std::string(n, c)]. *)
Definition string_fill (n : nat) (c : ascii) : string :=
  string_of_list_ascii (replicate n c).

Definition rand : M Z := fun w =>
  (Returned (rand_seq w (rand_pos w)), with_rand_pos (S (rand_pos w)) w).

(** [rand() % hexValues.size()]: the [int] is converted to [std::size_t]
    (64 bits) before the remainder is taken. *)
Definition hex_index (r : Z) : nat :=
  Z.to_nat ((r mod 2 ^ 64) mod Z.of_nat (String.length hexValues)).

(** The [for] loop of generateReadId, [todo] iterations left from index [i]. *)
Fixpoint generateReadId_loop (todo i : nat) (id : string) : M string :=
  match todo with
  | O => mret id
  | S todo' =>
      r ← rand;
      generateReadId_loop todo' (S i) (string_set id i (string_at hexValues (hex_index r)))
  end.

Definition generateReadId : M string :=
  let id := string_fill readIdSize "0"%char in
  generateReadId_loop (String.length id - 0) 0 id.

(** The uppercase hexadecimal digits, by character code. *)
Definition is_upper_hex (c : ascii) : bool :=
  let n := nat_of_ascii c in
  ((48 <=? n)%nat && (n <=? 57)%nat) || ((65 <=? n)%nat && (n <=? 70)%nat).

(** [parsePathList]: the strings of an array argument; anything else gives
    no paths. *)
Definition parsePathList (rawArg : Value) : list string :=
  if negb (IsUndefined rawArg) && IsArray rawArg then
    match rawArg with
    | Array rawArray =>
        omap (fun rawValue => if IsString rawValue then Some (Utf8Value rawValue) else None)
             rawArray
    | _ => []
    end
  else [].

(** ** shared_ptr<PdalSession> *)

(** Copying a shared pointer adds an owner. *)
Definition add_owner (p : option nat) (h : gmap nat (nat * PdalSession.t))
    : gmap nat (nat * PdalSession.t) :=
  match p with
  | Some a => alter (fun b => (S b.1, b.2)) a h
  | None => h
  end.

Definition shared_copy (p : option nat) : M (option nat) :=
  modify (with_sessions (add_owner p));;
  mret p.

(** [reset()] and the destructor drop an owner; the last owner deletes the
    session.  On an empty pointer nothing happens. *)
Definition release_owner (p : option nat) (h : gmap nat (nat * PdalSession.t))
    : gmap nat (nat * PdalSession.t) :=
  match p with
  | Some a =>
      match h !! a with
      | Some (S (S n), s) => <[a := (S n, s)]> h
      | Some _ => delete a h
      | None => h
      end
  | None => h
  end.

Definition shared_release (p : option nat) : M unit :=
  modify (with_sessions (release_owner p)).

(** [p->method(...)] for a query: an empty pointer has nothing to call. *)
Definition session_query {A : Type} (q : PdalSession.t -> Outcome A) : M A :=
  p ← gets m_pdalSession;
  match p with
  | None => crash
  | Some a =>
      b ← gets (fun w => sessions w !! a);
      match b with
      | None => crash
      | Some (_, s) => lift (q s)
      end
  end.

(** What a call into the engine does: the state it leaves the session in
    and the exception it throws, if any. *)
Record EngineEffect : Type := {
  session_after : PdalSession.t;
  raised : option Exn
}.

(** [p->initialize(...)], [p->serialize(...)] on a task's shared pointer. *)
Definition session_call (p : option nat) (eff : EngineEffect) : M unit :=
  match p with
  | None => crash
  | Some a =>
      b ← gets (fun w => sessions w !! a);
      match b with
      | None => crash
      | Some (n, _) =>
          modify (with_sessions (insert a (n, session_after eff)));;
          match raised eff with
          | Some e => throw e
          | None => mret tt
          end
      end
  end.

(** ** v8 and libuv *)

(** [Persistent<Function>::New(Local<Function>::Cast(v))]. *)
Definition Persistent_New (v : Value) : M Persistent :=
  h ← gets next_handle;
  modify (with_next_handle (S h));;
  mret {| handle := h; target := match v with Function f => f | _ => O end |}.

(** [cb->Call(Context::GetCurrent()->Global(), argc, argv)]; what the
    called function does in its turn is outside the embedding. *)
Definition Call_ (cb : Persistent) (argv : list Value) : M unit :=
  modify (with_events (fun l => l ++ [Call (target cb) argv])).

(** [cb.Dispose()]. *)
Definition Dispose_ (cb : Persistent) : M unit :=
  modify (with_events (fun l => l ++ [Dispose (handle cb)])).

(** Modelled from the spec: errorCallback is declared in read-command.hpp,
    which is not part of the sources.  The callback contract of the spec is
    a call with the single argument [(errorMessage)]; the handle is released
    once on every branch, and the error branches of this file release
    nothing themselves, so the release is done here. *)
Definition errorCallback (cb : Persistent) (msg : string) : M unit :=
  Call_ cb [Str msg];;
  Dispose_ cb.

(** [uv_queue_work(uv_default_loop(), req, work, after_work)]: the request
    waits for a pool thread.  Only [req->data] is kept; the [uv_work_t]
    around it is not modelled. *)
Definition uv_queue_work (t : Task) : M unit :=
  modify (with_work_queue (fun q => q ++ [t])).

(** [s.size()] used as a condition. *)
Definition nonempty (s : string) : bool := negb (String.length s =? 0)%nat.

(** The three [catch] clauses of the create and serialize workers.
    [errMsg = e.what()] assigns from a [const char*]. *)
Definition caught_message (op : string) (e : Exn) : string :=
  match e with
  | runtime_error what => c_str what
  | bad_alloc => "Memory allocation failed in " +:+ op
  | other_exception => "Unknown error"
  end.

(** The two [catch] clauses of the read worker; [e.what()] is a
    [const char*] here too. *)
Definition read_caught_message (e : Exn) : string :=
  match e with
  | runtime_error what => c_str what
  | _ => "Unknown error"
  end.

(** ** The read-command registry *)

(** [m_readCommands[readId] = readCommand] on a [std::map]: an existing
    entry is assigned to; a missing one is allocated first, which can
    throw. *)
Definition registry_store (id : string) (p : nat) : M unit := fun w =>
  match m_readCommands w !! id with
  | Some _ => (Returned tt, with_m_readCommands (insert id p) w)
  | None =>
      if registry_alloc_fails w then (Thrown bad_alloc, w)
      else (Returned tt, with_m_readCommands (insert id p) w)
  end.

(** Modelled from the spec: ReadCommand::eraseSelf is declared in
    read-command.hpp, which is not part of the sources.  Per the registry
    contract, removal deletes the entry under the command's identifier and is
    a no-op if there is none. *)
Definition eraseSelf (c : ReadCommand) : M unit :=
  modify (with_m_readCommands (delete (readId c))).

(** [*readCommand], null or dangling pointers having no defined meaning. *)
Definition deref (p : nat) : M ReadCommand :=
  c ← gets (fun w => commands w !! p);
  match c with
  | Some c => mret c
  | None => crash
  end.

(** [delete readCommand]: the object goes and so does its share of the
    session. *)
Definition delete_readCommand (p : nat) : M unit :=
  c ← deref p;
  modify (with_commands (delete p));;
  shared_release (pdalSession c).

(** [readCommand->errMsg(msg)]. *)
Definition ReadCommand_errMsg (p : nat) (msg : string) : M unit :=
  c ← deref p;
  modify (with_commands (insert p (set_errMsg msg c))).

(** What [run()] leaves in the command and whether it throws. *)
Record RunEffect : Type := {
  run_errMsg : string;
  run_numPoints : Z;
  run_numBytes : Z;
  run_data : list Z;
  run_raised : option Exn
}.

Definition ReadCommand_run (p : nat) (eff : RunEffect) : M unit :=
  c ← deref p;
  modify (with_commands (insert p
    {| pdalSession := pdalSession c; readId := readId c; callback := callback c;
       rasterMeta := rasterMeta c; errMsg := run_errMsg eff;
       numPoints := run_numPoints eff; numBytes := run_numBytes eff;
       data := run_data eff |}));;
  match run_raised eff with
  | Some e => throw e
  | None => mret tt
  end.

(** The verdict of the read-command factory on the arguments of a read. *)
Inductive Verdict : Type :=
| Rejected (msg : string) (fn : option nat)
| Accepted (raster : option RasterMeta) (fn : nat).

Definition current_session (w : World) : option PdalSession.t :=
  a ← m_pdalSession w; b ← sessions w !! a; Some b.2.

(** ** PdalBindings

    The mutex [m_readCommandsMutex] is taken and released around the single
    registry update on the calling thread, on both the normal and the
    throwing path; the embedding runs one phase at a time and leaves it
    out.  Handle scopes and the lines written to [std::cout] have no effect
    on the state modelled here. *)

Module PdalBindings.

(** [new CreateData(session, ...)]: the payload takes a share of the
    session; its error slot starts empty. *)
Definition new_CreateData (pipelineId pipeline : string)
    (serialPaths : list string) (execute : bool) (callback : Persistent)
    : M CreateData.t :=
  p ← gets m_pdalSession;
  p' ← shared_copy p;
  mret {| CreateData.pdalSession := p'; CreateData.pipelineId := pipelineId;
          CreateData.pipeline := pipeline; CreateData.serialPaths := serialPaths;
          CreateData.execute := execute; CreateData.callback := callback;
          CreateData.errMsg := "" |}.

Definition new_SerializeData (paths : list string) (callback : Persistent)
    : M SerializeData.t :=
  p ← gets m_pdalSession;
  p' ← shared_copy p;
  mret {| SerializeData.pdalSession := p'; SerializeData.paths := paths;
          SerializeData.callback := callback; SerializeData.errMsg := "" |}.

(** The validation at the head of doInitialize: the later check
    overwrites the message of the earlier one. *)
Definition doInitialize_errMsg (args : list Value) : string :=
  let errMsg := "" in
  let errMsg :=
    if IsUndefined (arg args 0) || negb (IsString (arg args 0))
    then "'pipelineId' must be a string - args[0]" else errMsg in
  let errMsg :=
    if IsUndefined (arg args 1) || negb (IsString (arg args 1))
    then "'pipeline' must be a string - args[1]" else errMsg in
  errMsg.

Definition doInitialize (args : list Value) (execute : bool) : M unit :=
  let errMsg := doInitialize_errMsg args in
  if IsUndefined (arg args 3) || negb (IsFunction (arg args 3)) then
    throw (runtime_error "Invalid callback supplied to 'create'")
  else
    callback ← Persistent_New (arg args 3);
    if nonempty errMsg then
      errorCallback callback errMsg
    else
      let pipelineId := Utf8Value (arg args 0) in
      let pipeline := Utf8Value (arg args 1) in
      let serialPaths := parsePathList (arg args 2) in
      createData ← new_CreateData pipelineId pipeline serialPaths execute callback;
      uv_queue_work (CreateTask createData).

(** The background phase of create and parse. *)
Definition create_work (eff : EngineEffect) (createData : CreateData.t)
    : M CreateData.t :=
  try_catch
    (session_call (CreateData.pdalSession createData) eff;; mret createData)
    (fun e => mret (CreateData.set_errMsg (caught_message "CREATE" e) createData)).

(** The completion phase of create and parse. *)
Definition create_after_work (createData : CreateData.t) : M unit :=
  Call_ (CreateData.callback createData) [Str (CreateData.errMsg createData)];;
  Dispose_ (CreateData.callback createData);;
  (* delete createData *)
  shared_release (CreateData.pdalSession createData).

Definition create (args : list Value) : M Value :=
  doInitialize args true;;
  mret Undefined.

Definition parse (args : list Value) : M Value :=
  doInitialize args false;;
  p ← gets m_pdalSession;
  shared_release p;;
  modify (with_m_pdalSession None);;
  mret Undefined.

Definition destroy (args : list Value) : M Value :=
  p ← gets m_pdalSession;
  shared_release p;;
  modify (with_m_pdalSession None);;
  mret Undefined.

Definition getNumPoints (args : list Value) : M Value :=
  n ← session_query PdalSession.getNumPoints;
  mret (Int (to_int32 n)).

Definition getSchema (args : list Value) : M Value :=
  schema ← session_query PdalSession.getSchema;
  mret (Str schema).

Definition getStats (args : list Value) : M Value :=
  stats ← session_query PdalSession.getStats;
  mret (Str stats).

Definition getSrs (args : list Value) : M Value :=
  wkt ← session_query PdalSession.getSrs;
  mret (Str wkt).

Definition getFills (args : list Value) : M Value :=
  fills ← session_query PdalSession.getFills;
  mret (Array (map (fun n => Int (to_int32 n)) fills)).

Definition serialize (args : list Value) : M Value :=
  let errMsg := "" in
  if IsUndefined (arg args 1) || negb (IsFunction (arg args 1)) then
    throw (runtime_error "Invalid callback supplied to 'serialize'")
  else
    callback ← Persistent_New (arg args 1);
    if nonempty errMsg then
      errorCallback callback errMsg;;
      mret Undefined
    else
      let paths := parsePathList (arg args 0) in
      serializeData ← new_SerializeData paths callback;
      uv_queue_work (SerializeTask serializeData);;
      mret Undefined.

Definition serialize_work (eff : EngineEffect) (serializeData : SerializeData.t)
    : M SerializeData.t :=
  try_catch
    (session_call (SerializeData.pdalSession serializeData) eff;; mret serializeData)
    (fun e => mret (SerializeData.set_errMsg (caught_message "SERIALIZE" e) serializeData)).

Definition serialize_after_work (serializeData : SerializeData.t) : M unit :=
  Call_ (SerializeData.callback serializeData)
        [Str (SerializeData.errMsg serializeData)];;
  Dispose_ (SerializeData.callback serializeData);;
  (* delete serializeData *)
  shared_release (SerializeData.pdalSession serializeData).

Section Read.

(** ReadCommandFactory::create is declared in read-command.hpp, which is
    not part of the sources: its judgement of the arguments, given the
    session as it is, is a parameter. *)
Variable validate : option PdalSession.t -> list Value -> Verdict.

(** Modelled from the spec: ReadCommandFactory::create.  On invalid
    arguments it makes an error callback, if a callback argument can be
    identified, and returns a null pointer with no command constructed;
    otherwise it constructs the command, raw or rastered, which holds the
    identifier, the callback and a share of the session. *)
Definition ReadCommandFactory_create (readId : string) (args : list Value)
    : M (option nat) :=
  s ← gets current_session;
  match validate s args with
  | Rejected msg None => mret None
  | Rejected msg (Some fn) =>
      callback ← Persistent_New (Function fn);
      errorCallback callback msg;;
      mret None
  | Accepted raster fn =>
      callback ← Persistent_New (Function fn);
      p ← gets m_pdalSession;
      p' ← shared_copy p;
      a ← gets next_addr;
      modify (with_next_addr (S a));;
      modify (with_commands (insert a
        {| pdalSession := p'; readId := readId; callback := callback;
           rasterMeta := raster; errMsg := ""; numPoints := 0;
           numBytes := 0; data := [] |}));;
      mret (Some a)
  end.

Definition read (args : list Value) : M Value :=
  readId ← generateReadId;
  readCommand ← ReadCommandFactory_create readId args;
  match readCommand with
  | None => mret Undefined
  | Some readCommand =>
      try_catch (registry_store readId readCommand)
        (fun _ => throw (runtime_error "Could not lock readCommands"));;
      uv_queue_work (ReadTask readCommand);;
      mret Undefined
  end.

End Read.

(** The background phase of read. *)
Definition read_work (eff : RunEffect) (readCommand : nat) : M unit :=
  try_catch (ReadCommand_run readCommand eff)
    (fun e => ReadCommand_errMsg readCommand (read_caught_message e)).

(** [node::Buffer::New(data, numBytes)] copies that many bytes.  [data c]
    stands for the memory [data()] points to; what a copy would read
    beyond its end is not modelled. *)
Definition Buffer_New (c : ReadCommand) : Value :=
  Buffer (take (Z.to_nat (numBytes c)) (data c)).

(** The five leading arguments of a successful read callback. *)
Definition read_argv (c : ReadCommand) : list Value :=
  [ Null; Str (readId c); Int (to_int32 (numPoints c));
    Int (to_int32 (numBytes c)); Buffer_New c ].

(** The completion phase of read. *)
Definition read_after_work (readCommand : nat) : M unit :=
  c ← deref readCommand;
  if nonempty (errMsg c) then
    errorCallback (callback c) (errMsg c);;
    (* Clean up since we won't be calling the async send code. *)
    eraseSelf c;;
    delete_readCommand readCommand
  else
    (if rasterize c then
       (* the cast of a non-null pointer is non-null *)
       match rasterMeta c with
       | Some rasterMeta =>
           Call_ (callback c)
             (read_argv c ++
              [ Number (xBegin rasterMeta); Number (xStep rasterMeta);
                Int (to_int32 (xNum rasterMeta));
                Number (yBegin rasterMeta); Number (yStep rasterMeta);
                Int (to_int32 (yNum rasterMeta)) ])
       | None => errorCallback (callback c) "Invalid ReadCommand"
       end
     else
       Call_ (callback c) (read_argv c));;
    Dispose_ (callback c).

(** The background phase of a dequeued request, on a pool thread.  The
    payload of a create or serialize request is changed in place; a read
    request changes its command. *)
Definition uv_work (t : Task) (eff : EngineEffect) (run : RunEffect) : M Task :=
  match t with
  | CreateTask d => d' ← create_work eff d; mret (CreateTask d')
  | SerializeTask d => d' ← serialize_work eff d; mret (SerializeTask d')
  | ReadTask p => read_work run p;; mret (ReadTask p)
  end.

(** The completion phase, back on the loop thread. *)
Definition uv_after_work (t : Task) : M unit :=
  match t with
  | CreateTask d => create_after_work d
  | SerializeTask d => serialize_after_work d
  | ReadTask p => read_after_work p
  end.

Definition uv_run (t : Task) (eff : EngineEffect) (run : RunEffect) : M unit :=
  t' ← uv_work t eff run;
  uv_after_work t'.

End PdalBindings.

(** The hexadecimal digit chosen for one value of [rand()]. *)
Definition hex_digit (r : Z) : ascii := string_at hexValues (hex_index r).

(** The digits generateReadId writes: one per value of [rand()], [todo] of
    them from position [pos] of the random sequence. *)
Fixpoint drawn (rs : nat -> Z) (pos todo : nat) : list ascii :=
  match todo with
  | O => []
  | S todo' => hex_digit (rs pos) :: drawn rs (S pos) todo'
  end.

(** [f] applied to what a call returns. *)
Definition Outcome_map {A B : Type} (f : A -> B) (o : Outcome A) : Outcome B :=
  match o with
  | Returned a => Returned (f a)
  | Thrown e => Thrown e
  | Crashed => Crashed
  end.

(** ** Vocabulary of the properties *)

(** The asynchronous operations that take their callback from a fixed
    argument position. *)
Inductive AsyncOp : Type := OpCreate | OpParse | OpSerialize.

Definition invoke (op : AsyncOp) : list Value -> M Value :=
  match op with
  | OpCreate => PdalBindings.create
  | OpParse => PdalBindings.parse
  | OpSerialize => PdalBindings.serialize
  end.

Definition callback_position (op : AsyncOp) : nat :=
  match op with
  | OpCreate | OpParse => 3%nat
  | OpSerialize => 1%nat
  end.

Definition invalid_callback_message (op : AsyncOp) : string :=
  match op with
  | OpCreate | OpParse => "Invalid callback supplied to 'create'"
  | OpSerialize => "Invalid callback supplied to 'serialize'"
  end.

(** The synchronous queries. *)
Inductive Query : Type := QNumPoints | QSchema | QStats | QSrs | QFills.

Definition query (q : Query) : list Value -> M Value :=
  match q with
  | QNumPoints => PdalBindings.getNumPoints
  | QSchema => PdalBindings.getSchema
  | QStats => PdalBindings.getStats
  | QSrs => PdalBindings.getSrs
  | QFills => PdalBindings.getFills
  end.

(** What the session itself answers to a query, as the JavaScript value the
    binding builds from it. *)
Definition session_answer (q : Query) (s : PdalSession.t) : Outcome Value :=
  match q with
  | QNumPoints => Outcome_map (fun n => Int (to_int32 n)) (PdalSession.getNumPoints s)
  | QSchema => Outcome_map Str (PdalSession.getSchema s)
  | QStats => Outcome_map Str (PdalSession.getStats s)
  | QSrs => Outcome_map Str (PdalSession.getSrs s)
  | QFills => Outcome_map (fun l => Array (map (fun n => Int (to_int32 n)) l))
                (PdalSession.getFills s)
  end.

(** A call reports an error when it throws; crashing is not reporting. *)
Definition reports_error {A : Type} (r : Outcome A * World) : Prop :=
  exists e, r.1 = Thrown e.

(** The identifier the next call of generateReadId yields. *)
Definition next_readId (w : World) : string :=
  string_of_list_ascii (drawn (rand_seq w) (rand_pos w) readIdSize).

(** The command the factory constructs for an accepted read. *)
Definition fresh_command (w : World) (raster : option RasterMeta) (fn : nat)
    : ReadCommand :=
  {| pdalSession := m_pdalSession w; readId := next_readId w;
     callback := {| handle := next_handle w; target := fn |};
     rasterMeta := raster; errMsg := ""; numPoints := 0; numBytes := 0;
     data := [] |}.

(** The world an accepted read leaves when the command has been
    constructed, but not yet registered. *)
Definition constructed (w : World) (raster : option RasterMeta) (fn : nat) : World :=
  with_commands (insert (next_addr w) (fresh_command w raster fn))
    (with_next_addr (S (next_addr w))
       (with_sessions (add_owner (m_pdalSession w))
          (with_next_handle (S (next_handle w))
             (with_rand_pos (rand_pos w + readIdSize) w)))).

(** The world an accepted, registered and queued read leaves. *)
Definition dispatched (w : World) (raster : option RasterMeta) (fn : nat) : World :=
  with_work_queue (fun q => q ++ [ReadTask (next_addr w)])
    (with_m_readCommands (insert (next_readId w) (next_addr w))
       (constructed w raster fn)).

(** The arguments of the callback of a successful read: five for a raw
    read, eleven for a rastered one. *)
Definition success_argv (c : ReadCommand) : list Value :=
  PdalBindings.read_argv c ++
  match rasterMeta c with
  | Some m => [ Number (xBegin m); Number (xStep m); Int (to_int32 (xNum m));
                Number (yBegin m); Number (yStep m); Int (to_int32 (yNum m)) ]
  | None => []
  end.

(** The calls into JavaScript among some events. *)
Definition calls (evs : list Event) : list Event :=
  List.filter (fun e => match e with Call _ _ => true | Dispose _ => false end) evs.

(** The command as [run()] and the [catch] clauses of the read worker
    leave it. *)
Definition after_run (eff : RunEffect) (c : ReadCommand) : ReadCommand :=
  {| pdalSession := pdalSession c; readId := readId c; callback := callback c;
     rasterMeta := rasterMeta c;
     errMsg := match run_raised eff with
               | Some e => read_caught_message e
               | None => run_errMsg eff
               end;
     numPoints := run_numPoints eff; numBytes := run_numBytes eff;
     data := run_data eff |}.

(** A queued request can be worked on: its session pointer, or its command
    pointer, leads somewhere. *)
Definition task_ready (t : Task) (w : World) : bool :=
  match t with
  | CreateTask d =>
      match CreateData.pdalSession d with
      | Some a => bool_decide (is_Some (sessions w !! a))
      | None => false
      end
  | SerializeTask d =>
      match SerializeData.pdalSession d with
      | Some a => bool_decide (is_Some (sessions w !! a))
      | None => false
      end
  | ReadTask p => bool_decide (is_Some (commands w !! p))
  end.

(** The exception the engine throws in the background phase of a request,
    and the message the worker's [catch] clauses make of it. *)
Definition task_raised (t : Task) (eff : EngineEffect) (run : RunEffect) : option Exn :=
  match t with
  | CreateTask _ | SerializeTask _ => raised eff
  | ReadTask _ => run_raised run
  end.

Definition task_caught (t : Task) (e : Exn) : string :=
  match t with
  | CreateTask _ => caught_message "CREATE" e
  | SerializeTask _ => caught_message "SERIALIZE" e
  | ReadTask _ => read_caught_message e
  end.

(** The error slot and the callback of a request. *)
Definition task_errMsg (t : Task) (w : World) : option string :=
  match t with
  | CreateTask d => Some (CreateData.errMsg d)
  | SerializeTask d => Some (SerializeData.errMsg d)
  | ReadTask p => errMsg <$> commands w !! p
  end.

Definition task_callback (t : Task) (w : World) : option Persistent :=
  match t with
  | CreateTask d => Some (CreateData.callback d)
  | SerializeTask d => Some (SerializeData.callback d)
  | ReadTask p => callback <$> commands w !! p
  end.

(** The normal result a completion hands to the callback: the message, or
    for a read without one the success payload. *)
Definition completion_argv (t : Task) (w : World) : list Value :=
  match t with
  | CreateTask d => [Str (CreateData.errMsg d)]
  | SerializeTask d => [Str (SerializeData.errMsg d)]
  | ReadTask p =>
      match commands w !! p with
      | Some c => if nonempty (errMsg c) then [Str (errMsg c)] else success_argv c
      | None => []
      end
  end.

(** ** A concrete world

    One binding object whose session has been created and holds ten points;
    nothing is in flight.  [rand()] is the generator of the C standard's
    sample implementation. *)

Definition session0 : PdalSession.t :=
  {| PdalSession.getNumPoints := Returned 10;
     PdalSession.getSchema := Returned "<schema/>";
     PdalSession.getStats := Returned "{}";
     PdalSession.getSrs := Returned "EPSG:4326";
     PdalSession.getFills := Returned [10] |}.

Fixpoint lcg (n : nat) : Z :=
  match n with
  | O => 1
  | S n' => (lcg n' * 1103515245 + 12345) mod 2 ^ 32
  end.

Definition sample_rand (n : nat) : Z := (lcg (S n) / 65536) mod 32768.

Definition world0 : World :=
  {| sessions := {[ 0%nat := (1%nat, session0) ]};
     commands := ∅;
     next_addr := 0;
     m_pdalSession := Some 0%nat;
     m_readCommands := ∅;
     registry_alloc_fails := false;
     work_queue := [];
     events := [];
     next_handle := 0;
     rand_seq := sample_rand;
     rand_pos := 0 |}.

(** A factory that accepts every read as a raw read calling function 7. *)
Definition accept_any (s : option PdalSession.t) (args : list Value) : Verdict :=
  Accepted None 7.

(** The sample world with [rand()] reseeded before every read: each read
    sees the same 24 values. *)
Definition world_reseeded : World :=
  {| sessions := sessions world0; commands := commands world0;
     next_addr := next_addr world0; m_pdalSession := m_pdalSession world0;
     m_readCommands := m_readCommands world0;
     registry_alloc_fails := registry_alloc_fails world0;
     work_queue := work_queue world0; events := events world0;
     next_handle := next_handle world0;
     rand_seq := fun n => sample_rand (n mod 24);
     rand_pos := 0 |}.

(** The sample world after [destroy]. *)
Definition world_destroyed : World := (PdalBindings.destroy [] world0).2.

(** The sample world after one read has been dispatched. *)
Definition world_reading : World := (PdalBindings.read accept_any [] world_reseeded).2.

(** The sample world after a second read has been dispatched. *)
Definition world_reading_twice : World := (PdalBindings.read accept_any [] world_reading).2.

(** Arguments of [create] whose pipeline identifier is a number. *)
Definition bad_create_args : list Value := [Int 5; Str "{}"; Undefined; Function 7].

(** A run of the engine that fills the buffer with four bytes of one
    point. *)
Definition run_ok : RunEffect :=
  {| run_errMsg := ""; run_numPoints := 1; run_numBytes := 4;
     run_data := [1; 2; 3; 4]; run_raised := None |}.

Definition engine_ok : EngineEffect :=
  {| session_after := session0; raised := None |}.

(** A run of the engine that throws something that is no runtime_error. *)
Definition run_throws : RunEffect :=
  {| run_errMsg := ""; run_numPoints := 0; run_numBytes := 0;
     run_data := []; run_raised := Some bad_alloc |}.

(** ** Further vocabulary: dispatch and the event loop *)

(** The arguments an asynchronous operation accepts: a function in the
    callback position and, for create and parse, strings in the first two
    positions. *)
Definition accepted_args (op : AsyncOp) (args : list Value) : bool :=
  IsFunction (arg args (callback_position op)) &&
  match op with
  | OpCreate | OpParse => IsString (arg args 0) && IsString (arg args 1)
  | OpSerialize => true
  end.

(** The function object in the callback position. *)
Definition callback_fn (op : AsyncOp) (args : list Value) : nat :=
  match arg args (callback_position op) with Function f => f | _ => O end.

(** The request an asynchronous operation queues in world [w]. *)
Definition queued_task (op : AsyncOp) (args : list Value) (w : World) : Task :=
  let cb := {| handle := next_handle w; target := callback_fn op args |} in
  match op with
  | OpCreate | OpParse =>
      CreateTask
        {| CreateData.pdalSession := m_pdalSession w;
           CreateData.pipelineId := Utf8Value (arg args 0);
           CreateData.pipeline := Utf8Value (arg args 1);
           CreateData.serialPaths := parsePathList (arg args 2);
           CreateData.execute := match op with OpCreate => true | _ => false end;
           CreateData.callback := cb;
           CreateData.errMsg := "" |}
  | OpSerialize =>
      SerializeTask
        {| SerializeData.pdalSession := m_pdalSession w;
           SerializeData.paths := parsePathList (arg args 0);
           SerializeData.callback := cb;
           SerializeData.errMsg := "" |}
  end.

(** The world an accepted create, parse or serialize leaves. *)
Definition after_accepted (op : AsyncOp) (args : list Value) (w : World) : World :=
  let w1 :=
    with_work_queue (fun q => q ++ [queued_task op args w])
      (with_sessions (add_owner (m_pdalSession w))
         (with_next_handle (S (next_handle w)) w)) in
  match op with
  | OpParse => with_m_pdalSession None (with_sessions (release_owner (m_pdalSession w)) w1)
  | _ => w1
  end.

(** The world a rejected read leaves. *)
Definition after_rejected (msg : string) (fn : option nat) (w : World) : World :=
  let w1 := with_rand_pos (rand_pos w + readIdSize) w in
  match fn with
  | Some f =>
      with_events (fun l => l ++ [Call f [Str msg]; Dispose (next_handle w)])
        (with_next_handle (S (next_handle w)) w1)
  | None => w1
  end.

(** The message the completion of a create, parse or serialize request
    passes to the callback: empty unless the engine threw. *)
Definition completion_message (op : AsyncOp) (eff : EngineEffect) : string :=
  match raised eff with
  | Some e =>
      caught_message (match op with OpSerialize => "SERIALIZE" | _ => "CREATE" end) e
  | None => ""
  end.

(** Arguments of a valid [create] with two paths and a stray number among
    them. *)
Definition good_create_args : list Value :=
  [Str "p1"; Str "{}"; Array [Str "a.las"; Int 3; Str "b.las"]; Function 7].

(** A factory that rejects every read and finds no callback among the
    arguments. *)
Definition reject_any (s : option PdalSession.t) (args : list Value) : Verdict :=
  Rejected "Invalid arguments" None.

(** The sample world when no further node can be allocated for the
    registry. *)
Definition world_full : World :=
  {| sessions := sessions world0; commands := commands world0;
     next_addr := next_addr world0; m_pdalSession := m_pdalSession world0;
     m_readCommands := m_readCommands world0;
     registry_alloc_fails := true;
     work_queue := work_queue world0; events := events world0;
     next_handle := next_handle world0;
     rand_seq := rand_seq world0; rand_pos := rand_pos world0 |}.

(** A rastered command holding eight bytes, of which six are announced. *)
Definition command_rastered : ReadCommand :=
  {| pdalSession := Some 0%nat; readId := "6E1BBB2B46DFCC171F1E62F7";
     callback := {| handle := 0; target := 7 |};
     rasterMeta := Some {| xBegin := 0; xStep := 2; xNum := 5;
                           yBegin := 0; yStep := 2; yNum := 5 |};
     errMsg := ""; numPoints := 3; numBytes := 6;
     data := [1; 2; 3; 4; 5; 6; 7; 8] |}.

(** The same command after a failed run. *)
Definition command_failed : ReadCommand := set_errMsg "Unknown error" command_rastered.

(** The sample world holding that command at address 0. *)
Definition world_with (c : ReadCommand) : World :=
  with_commands (insert 0%nat c) (with_next_addr 1 world0).

(** ** The binding under the event loop

    Requests queued with [uv_queue_work] are taken by pool threads in any
    order; a request whose background phase has returned waits for the loop
    to run its completion.  Calls from JavaScript come in between. *)

Record Loop : Type := {
  world : World;
  finished : list Task   (* background phase done, completion not yet run *)
}.

Inductive Action : Type :=
| ACall (op : AsyncOp) (args : list Value)
| ADestroy (args : list Value)
| AQuery (q : Query) (args : list Value)
| ARead (args : list Value)
| AWork (i : nat) (eff : EngineEffect) (run : RunEffect)
| AAfter (j : nat).

(** A call from JavaScript acts on the world alone. *)
Definition in_world {A : Type} (m : M A) (L : Loop) : Outcome unit * Loop :=
  (Outcome_map (fun _ => tt) (m (world L)).1,
   {| world := (m (world L)).2; finished := finished L |}).

Section Steps.

Variable validate : option PdalSession.t -> list Value -> Verdict.

Definition step (a : Action) (L : Loop) : Outcome unit * Loop :=
  match a with
  | ACall op args => in_world (invoke op args) L
  | ADestroy args => in_world (PdalBindings.destroy args) L
  | AQuery q args => in_world (query q args) L
  | ARead args => in_world (PdalBindings.read validate args) L
  | AWork i eff run =>
      match work_queue (world L) !! i with
      | None => (Returned tt, L)
      | Some t =>
          match PdalBindings.uv_work t eff run (with_work_queue (delete i) (world L)) with
          | (Returned t', w') =>
              (Returned tt, {| world := w'; finished := finished L ++ [t'] |})
          | (Thrown e, w') => (Thrown e, {| world := w'; finished := finished L |})
          | (Crashed, w') => (Crashed, {| world := w'; finished := finished L |})
          end
      end
  | AAfter j =>
      match finished L !! j with
      | None => (Returned tt, L)
      | Some t =>
          ((PdalBindings.uv_after_work t (world L)).1,
           {| world := (PdalBindings.uv_after_work t (world L)).2;
              finished := delete j (finished L) |})
      end
  end.

(** The states the binding goes through: from a binding just constructed,
    by any steps that do not crash the process. *)
Inductive reachable : Loop -> Prop :=
| reachable_boot (w : World) (a : nat) (s : PdalSession.t) :
    sessions w = {[ a := (1%nat, s) ]} ->
    commands w = ∅ ->
    m_pdalSession w = Some a ->
    m_readCommands w = ∅ ->
    work_queue w = [] ->
    events w = [] ->
    reachable {| world := w; finished := [] |}
| reachable_step (act : Action) (L : Loop) :
    reachable L ->
    (step act L).1 <> Crashed ->
    reachable (step act L).2.

End Steps.

(** The requests in flight, and the commands of the reads among them. *)
Definition pending (L : Loop) : list Task := work_queue (world L) ++ finished L.

Definition read_tasks (ts : list Task) : list nat :=
  omap (fun t => match t with ReadTask p => Some p | _ => None end) ts.

(** Registry, command heap and read requests agree with each other. *)
Record reads_consistent (L : Loop) : Prop := {
  commands_below :
    forall a, (next_addr (world L) <= a)%nat -> commands (world L) !! a = None;
  registry_live :
    forall id p, m_readCommands (world L) !! id = Some p ->
      exists c, commands (world L) !! p = Some c /\ readId c = id;
  tasks_distinct : NoDup (read_tasks (pending L));
  tasks_live :
    forall p, p ∈ read_tasks (pending L) -> is_Some (commands (world L) !! p)
}.

(** The session pointer a request carries; a read request reaches the
    session through its command. *)
Definition task_session (t : Task) : option nat :=
  match t with
  | CreateTask d => CreateData.pdalSession d
  | SerializeTask d => SerializeData.pdalSession d
  | ReadTask _ => None
  end.

(** One for a shared pointer that leads to [a]. *)
Definition owns (a : nat) (p : option nat) : nat :=
  if decide (p = Some a) then 1%nat else 0%nat.

(** The shared pointers to session [a] that exist: the binding's, those of
    the requests in flight and those of the allocated commands. *)
Definition owners (a : nat) (L : Loop) : nat :=
  (owns a (m_pdalSession (world L))
   + sum_list_with (fun t => owns a (task_session t)) (pending L)
   + sum_list_with (fun pc : nat * ReadCommand => owns a (pdalSession pc.2))
       (map_to_list (commands (world L))))%nat.

(** The use count of the control block at [a], zero when there is none. *)
Definition count_at (h : gmap nat (nat * PdalSession.t)) (a : nat) : nat :=
  match h !! a with Some b => b.1 | None => 0%nat end.

(** Each control block counts exactly the pointers that exist, and exists
    only while there is one. *)
Record sessions_counted (L : Loop) : Prop := {
  count_is_owners : forall a, count_at (sessions (world L)) a = owners a L;
  count_positive : forall a s, sessions (world L) !! a <> Some (O, s)
}.

(** The request an action works on. *)
Definition task_of (act : Action) (L : Loop) : option Task :=
  match act with
  | AWork i _ _ => work_queue (world L) !! i
  | AAfter j => finished L !! j
  | _ => None
  end.

(** The sample binding, nothing in flight, and the same after one read. *)
Definition loop0 : Loop := {| world := world0; finished := [] |}.
Definition loop_reading : Loop := (step accept_any (ARead []) loop0).2.

(** The sample binding after [destroy] and then an accepted [create]: the
    request queued holds no session. *)
Definition loop_orphan : Loop :=
  (step accept_any (ACall OpCreate good_create_args)
     (step accept_any (ADestroy []) loop0).2).2.

(** A log made of completed callbacks only: each call is followed at once
    by the disposal of the handle it went through.  The second list holds
    the handles disposed of, in order. *)
Inductive paired : list Event -> list nat -> Prop :=
| paired_nil : paired [] []
| paired_snoc evs hs fn argv h :
    paired evs hs -> paired (evs ++ [Call fn argv; Dispose h]) (hs ++ [h]).

(** The handle on the callback of a request; that of a read request is
    kept in its command. *)
Definition task_handle (w : World) (t : Task) : option nat :=
  match t with
  | CreateTask d => Some (handle (CreateData.callback d))
  | SerializeTask d => Some (handle (SerializeData.callback d))
  | ReadTask p => (fun c => handle (callback c)) <$> commands w !! p
  end.

Definition pending_handles (L : Loop) : list nat :=
  omap (task_handle (world L)) (pending L).

(** The log pairs calls with disposals, no handle was disposed of twice,
    and the handles of the requests in flight are distinct, allocated and
    not yet disposed of. *)
Definition callbacks_paired (L : Loop) : Prop :=
  exists hs,
    paired (events (world L)) hs /\
    NoDup (hs ++ pending_handles L) /\
    forall h, h ∈ hs ++ pending_handles L -> (h < next_handle (world L))%nat.

(** The handles disposed of in a log, in order. *)
Definition disposed (evs : list Event) : list nat :=
  omap (fun e => match e with Dispose h => Some h | Call _ _ => None end) evs.

(** The sample binding after two reads, the first of them worked on and
    completed. *)
Definition loop_served : Loop :=
  (step accept_any (AAfter 0)
     (step accept_any (AWork 0 engine_ok run_ok)
        (step accept_any (ARead []) loop_reading).2).2).2.

(** * Properties *)

(** ** Strings handed over as [char*] *)

Lemma c_str_cut s : cut_at_nul (c_str s) s.
Proof.
  unfold cut_at_nul, no_nul.
  induction s as [|c s [IHn IHs]]; simpl.
  - split; [by intros []|by left].
  - destruct (Ascii.eqb_spec c Ascii.zero) as [->|Hc].
    + split; [by intros []|]. right. by exists s.
    + split.
      * intros H. destruct H as [H|H]; [by apply Hc|by apply IHn].
      * destruct IHs as [IHs|[rest IHs]]; [left; by f_equal|].
        right. exists rest.
        change (String c s = String c (c_str s +:+ String Ascii.zero rest)).
        by f_equal.
Qed.

Lemma cut_at_nul_unique p q s : cut_at_nul p s -> cut_at_nul q s -> p = q.
Proof.
  unfold cut_at_nul, no_nul.
  revert p q. induction s as [|c s IH]; intros p q [Hp Hps] [Hq Hqs].
  - assert (Hnil : forall p0 : string,
              "" = p0 \/ (exists rest, "" = p0 +:+ String Ascii.zero rest) -> p0 = "")
      by (intros [|c0 p0] [E|[r E]]; try done; discriminate E).
    by rewrite (Hnil p Hps), (Hnil q Hqs).
  - assert (Hhead : forall p, no_nul p ->
              (String c s = p \/ exists rest, String c s = p +:+ String Ascii.zero rest) ->
              (c = Ascii.zero /\ p = "") \/
              (c <> Ascii.zero /\ exists p', p = String c p' /\ cut_at_nul p' s)).
    { unfold cut_at_nul, no_nul. intros p0 Hn [E|[r E]].
      - right. subst p0. split.
        + intros ->. apply Hn. by left.
        + exists s. split; [done|]. split; [|by left].
          intros H. apply Hn. by right.
      - destruct p0 as [|c0 p0]; simpl in E.
        + left. by inversion E.
        + right. inversion E; subst. split.
          * intros ->. apply Hn. by left.
          * exists p0. split; [done|]. split; [|right; by exists r].
            intros H. apply Hn. by right. }
    unfold cut_at_nul, no_nul in Hhead.
    destruct (Hhead p Hp Hps) as [[Hc ->]|[Hc (p' & -> & Hp')]],
             (Hhead q Hq Hqs) as [[Hc' ->]|[Hc' (q' & -> & Hq')]]; try done.
    f_equal. by apply IH.
Qed.

Lemma c_str_no_nul s : no_nul s -> c_str s = s.
Proof.
  intros H. apply (cut_at_nul_unique _ _ s); [apply c_str_cut|].
  split; [done|by left].
Qed.

(** ** Read identifiers *)

Lemma with_rand_pos_id w : with_rand_pos (rand_pos w) w = w.
Proof. by destruct w. Qed.

Lemma list_ascii_of_string_set s i c :
  list_ascii_of_string (string_set s i c) = <[i:=c]> (list_ascii_of_string s).
Proof. unfold string_set. apply list_ascii_of_string_of_list_ascii. Qed.

Lemma length_list_ascii_of_string s :
  length (list_ascii_of_string s) = String.length s.
Proof. induction s as [|a s IH]; simpl; congruence. Qed.

Lemma length_string_of_list_ascii l :
  String.length (string_of_list_ascii l) = length l.
Proof. induction l as [|a l IH]; simpl; congruence. Qed.

Lemma generateReadId_loop_spec todo :
  forall i id w,
    (i + todo <= String.length id)%nat ->
    generateReadId_loop todo i id w =
      (Returned (string_of_list_ascii
                   (take i (list_ascii_of_string id)
                    ++ drawn (rand_seq w) (rand_pos w) todo
                    ++ drop (i + todo) (list_ascii_of_string id))),
       with_rand_pos (rand_pos w + todo) w).
Proof.
  induction todo as [|todo IH]; intros i id w Hlen; simpl.
  - rewrite !Nat.add_0_r, take_drop, string_of_list_ascii_of_string.
    by rewrite with_rand_pos_id.
  - unfold mbind, M_bind, rand. simpl.
    rewrite IH by (unfold string_set; rewrite length_string_of_list_ascii, length_insert,
                     length_list_ascii_of_string; lia).
    rewrite list_ascii_of_string_set. simpl.
    set (l := list_ascii_of_string id).
    assert (Hi : (i < length l)%nat)
      by (subst l; rewrite length_list_ascii_of_string; lia).
    f_equal.
    + f_equal.
      rewrite (take_S_r _ _ (hex_digit (rand_seq w (rand_pos w))))
        by (by apply list_lookup_insert_eq).
      rewrite take_insert_ge by lia.
      rewrite drop_insert_lt by lia.
      rewrite <- app_assoc. simpl. by rewrite Nat.add_succ_r.
    + unfold with_rand_pos; simpl. f_equal. lia.
Qed.

(** The identifier is a function of the random sequence alone, and
    generating it only advances the sequence. *)
Lemma generateReadId_spec w :
  generateReadId w =
    (Returned (string_of_list_ascii (drawn (rand_seq w) (rand_pos w) readIdSize)),
     with_rand_pos (rand_pos w + readIdSize) w).
Proof.
  unfold generateReadId.
  rewrite generateReadId_loop_spec by lia.
  rewrite Nat.sub_0_r.
  replace (String.length (string_fill readIdSize "0"%char)) with readIdSize by reflexivity.
  rewrite drop_ge by (vm_compute; lia).
  by rewrite app_nil_r.
Qed.

Lemma hex_index_lt r : (hex_index r < 16)%nat.
Proof.
  unfold hex_index. simpl String.length.
  pose proof (Z.mod_pos_bound (r mod 2 ^ 64) (Z.of_nat 16) ltac:(lia)). lia.
Qed.

Lemma hex_digit_upper r : is_upper_hex (hex_digit r) = true.
Proof.
  unfold hex_digit. pose proof (hex_index_lt r) as H.
  generalize dependent (hex_index r). intros k H.
  do 16 (destruct k as [|k]; [reflexivity|]). lia.
Qed.

Lemma length_drawn rs pos todo : length (drawn rs pos todo) = todo.
Proof. revert pos; induction todo; intros; simpl; auto. Qed.

Lemma drawn_upper rs pos todo :
  Forall (fun c => is_upper_hex c = true) (drawn rs pos todo).
Proof.
  revert pos; induction todo; intros; simpl; constructor; auto using hex_digit_upper.
Qed.

(** C8: every identifier generateReadId produces has exactly 24 characters,
    each one of the uppercase hexadecimal digits 0-9, A-F; the call always
    returns. *)
Theorem generateReadId_format (w : World) :
  exists id w',
    generateReadId w = (Returned id, w') /\
    String.length id = 24%nat /\
    Forall (fun c => is_upper_hex c = true) (list_ascii_of_string id).
Proof.
  eexists _, _. split; [apply generateReadId_spec|]. split.
  - by rewrite length_string_of_list_ascii, length_drawn.
  - rewrite list_ascii_of_string_of_list_ascii. apply drawn_upper.
Qed.

(** ** Session lifecycle and queries *)

Ltac run :=
  unfold mbind, M_bind, mret, M_ret, gets, modify, throw, crash, lift, try_catch;
  simpl.

(** Every query goes through the binding's session pointer without looking
    at it first. *)
Lemma session_query_spec {A : Type} (q : PdalSession.t -> Outcome A) w :
  session_query q w =
    (match current_session w with Some s => q s | None => Crashed end, w).
Proof.
  unfold session_query, current_session. run.
  destruct (m_pdalSession w) as [a|]; simpl; [|done].
  by destruct (sessions w !! a) as [[n s]|].
Qed.

(** C9: [destroy] returns normally and leaves the binding without its
    session, its share of the session released; a second [destroy] right
    after it returns normally too and changes nothing. *)
Theorem destroy_twice_noop (args1 args2 : list Value) (w : World) :
  exists w1,
    PdalBindings.destroy args1 w = (Returned Undefined, w1) /\
    m_pdalSession w1 = None /\
    sessions w1 = release_owner (m_pdalSession w) (sessions w) /\
    PdalBindings.destroy args2 w1 = (Returned Undefined, w1).
Proof.
  unfold PdalBindings.destroy, shared_release. run.
  eexists. split; [reflexivity|]. repeat split.
Qed.

(** C10: [create], [parse] and [serialize] called with something that is
    not a function in the callback position throw a runtime_error to the
    caller and leave the world as it was: nothing is called, queued or
    allocated. *)
Theorem invalid_callback_throws (op : AsyncOp) (args : list Value) (w : World) :
  IsFunction (arg args (callback_position op)) = false ->
  invoke op args w = (Thrown (runtime_error (invalid_callback_message op)), w).
Proof.
  intros H. destruct op; simpl in *.
  - unfold PdalBindings.create, PdalBindings.doInitialize.
    rewrite H, orb_true_r. reflexivity.
  - unfold PdalBindings.parse, PdalBindings.doInitialize.
    rewrite H, orb_true_r. reflexivity.
  - unfold PdalBindings.serialize. rewrite H, orb_true_r. reflexivity.
Qed.

Lemma invalid_callback_throws_witness :
  IsFunction (arg [Array []; Str "done"] (callback_position OpSerialize)) = false /\
  invoke OpSerialize [Array []; Str "done"] world0 =
    (Thrown (runtime_error (invalid_callback_message OpSerialize)), world0).
Proof.
  split; [reflexivity|].
  apply (invalid_callback_throws OpSerialize [Array []; Str "done"] world0).
  reflexivity.
Defined.

Lemma nonempty_false s : nonempty s = false <-> s = "".
Proof. by destruct s. Qed.

Lemma nonempty_true s : s <> "" -> nonempty s = true.
Proof. by destruct s. Qed.

Lemma doInitialize_errMsg_nonempty args :
  IsString (arg args 0) = false \/ IsString (arg args 1) = false ->
  PdalBindings.doInitialize_errMsg args <> "".
Proof.
  unfold PdalBindings.doInitialize_errMsg. intros [H|H].
  - rewrite H. simpl. rewrite orb_true_r.
    by destruct (IsUndefined (arg args 1) || negb (IsString (arg args 1))).
  - rewrite H. simpl. by rewrite orb_true_r.
Qed.

(** C6: if [pipelineId] or [pipeline] is not a string (and a callback was
    supplied), doInitialize calls the callback once with the validation
    message, at once; it queues no work, constructs no payload or command
    and registers nothing. *)
Theorem doInitialize_validation_error
    (args : list Value) (execute : bool) (w : World) :
  IsFunction (arg args 3) = true ->
  IsString (arg args 0) = false \/ IsString (arg args 1) = false ->
  exists fn w',
    arg args 3 = Function fn /\
    PdalBindings.doInitialize_errMsg args <> "" /\
    PdalBindings.doInitialize args execute w = (Returned tt, w') /\
    events w' = events w ++ [Call fn [Str (PdalBindings.doInitialize_errMsg args)];
                             Dispose (next_handle w)] /\
    work_queue w' = work_queue w /\
    sessions w' = sessions w /\
    commands w' = commands w /\
    m_readCommands w' = m_readCommands w.
Proof.
  intros Hcb Hbad.
  destruct (arg args 3) as [| | | | |fn| |] eqn:E; try discriminate.
  pose proof (doInitialize_errMsg_nonempty args Hbad) as Hmsg.
  exists fn. eexists. split; [reflexivity|]. split; [exact Hmsg|].
  unfold PdalBindings.doInitialize. rewrite E. simpl.
  unfold errorCallback, Persistent_New, Call_, Dispose_. run.
  rewrite (nonempty_true _ Hmsg). simpl.
  split; [reflexivity|]. simpl. rewrite <- app_assoc. done.
Qed.

Lemma doInitialize_validation_error_witness :
  IsFunction (arg bad_create_args 3) = true /\
  (IsString (arg bad_create_args 0) = false \/ IsString (arg bad_create_args 1) = false) /\
  exists fn w',
    arg bad_create_args 3 = Function fn /\
    PdalBindings.doInitialize_errMsg bad_create_args <> "" /\
    PdalBindings.doInitialize bad_create_args true world0 = (Returned tt, w') /\
    events w' = events world0
                ++ [Call fn [Str (PdalBindings.doInitialize_errMsg bad_create_args)];
                    Dispose (next_handle world0)] /\
    work_queue w' = work_queue world0 /\
    sessions w' = sessions world0 /\
    commands w' = commands world0 /\
    m_readCommands w' = m_readCommands world0.
Proof.
  split; [reflexivity|]. split; [left; reflexivity|].
  apply (doInitialize_validation_error bad_create_args true world0);
    [reflexivity | left; reflexivity].
Defined.

(** What a query does, whatever the state of the binding: it answers as the
    session does when the binding's pointer leads to one, and crashes when
    it does not. *)
Lemma query_spec (q : Query) (args : list Value) (w : World) :
  query q args w =
    (match current_session w with
     | Some s => session_answer q s
     | None => Crashed
     end, w).
Proof.
  destruct q; simpl;
    unfold PdalBindings.getNumPoints, PdalBindings.getSchema, PdalBindings.getStats,
      PdalBindings.getSrs, PdalBindings.getFills;
    unfold mbind, M_bind; rewrite session_query_spec;
    by destruct (current_session w) as [[[] [] [] [] []]|].
Qed.

(** Both [destroy] and a [parse] that returns leave the binding without
    its session. *)
Lemma destroy_releases args w :
  m_pdalSession (PdalBindings.destroy args w).2 = None.
Proof. reflexivity. Qed.

Lemma parse_releases args w v w' :
  PdalBindings.parse args w = (Returned v, w') -> m_pdalSession w' = None.
Proof.
  unfold PdalBindings.parse. run.
  destruct (PdalBindings.doInitialize args false w) as [[[]|e|] w1]; simpl;
    intros H; inversion H; reflexivity.
Qed.

(** C3, as the claim has it, fails: after [destroy], [getNumPoints] on the
    sample binding crashes and reports nothing. *)
Lemma query_after_destroy_crashes :
  m_pdalSession world_destroyed = None /\
  (query QNumPoints [] world_destroyed).1 = Crashed /\
  ~ reports_error (query QNumPoints [] world_destroyed).
Proof.
  split; [reflexivity|]. split; [reflexivity|]. intros [e He]. discriminate He.
Qed.

(** C3, amended: a query made once the binding has released its session
    pointer (by [destroy] or [parse]) dereferences the empty pointer: it
    crashes and reports no error, and the world is left as it was. *)
Theorem query_without_session_crashes (q : Query) (args : list Value) (w : World) :
  m_pdalSession w = None ->
  query q args w = (Crashed, w) /\ ~ reports_error (query q args w).
Proof.
  intros H. rewrite query_spec. unfold current_session. rewrite H. simpl.
  split; [reflexivity|]. intros [e He]. discriminate He.
Qed.

Lemma query_without_session_crashes_witness :
  m_pdalSession world_destroyed = None /\
  query QSchema [] world_destroyed = (Crashed, world_destroyed) /\
  ~ reports_error (query QSchema [] world_destroyed).
Proof.
  split; [reflexivity|].
  apply (query_without_session_crashes QSchema [] world_destroyed). reflexivity.
Defined.

(** ** Reads *)

Lemma generateReadId_next w :
  generateReadId w = (Returned (next_readId w), with_rand_pos (rand_pos w + readIdSize) w).
Proof. apply generateReadId_spec. Qed.

(** An accepted read up to the registry update. *)
Lemma factory_accepted validate args w raster fn :
  validate (current_session w) args = Accepted raster fn ->
  PdalBindings.ReadCommandFactory_create validate (next_readId w) args
    (with_rand_pos (rand_pos w + readIdSize) w) =
  (Returned (Some (next_addr w)), constructed w raster fn).
Proof.
  intros Hv. unfold PdalBindings.ReadCommandFactory_create. run.
  change (current_session (with_rand_pos (rand_pos w + readIdSize) w))
    with (current_session w).
  rewrite Hv. reflexivity.
Qed.

(** What an accepted read does: the registry update fails only when a node
    has to be allocated and cannot be. *)
Lemma read_accepted validate args w raster fn :
  validate (current_session w) args = Accepted raster fn ->
  PdalBindings.read validate args w =
    match m_readCommands w !! next_readId w, registry_alloc_fails w with
    | None, true =>
        (Thrown (runtime_error "Could not lock readCommands"), constructed w raster fn)
    | _, _ => (Returned Undefined, dispatched w raster fn)
    end.
Proof.
  intros Hv. unfold PdalBindings.read.
  unfold mbind at 1, M_bind at 1. rewrite generateReadId_next.
  unfold mbind at 1, M_bind at 1. rewrite (factory_accepted _ _ _ _ _ Hv).
  unfold registry_store, uv_queue_work. run.
  change (m_readCommands (constructed w raster fn)) with (m_readCommands w).
  change (registry_alloc_fails (constructed w raster fn)) with (registry_alloc_fails w).
  destruct (m_readCommands w !! next_readId w); [reflexivity|].
  destruct (registry_alloc_fails w); reflexivity.
Qed.

(** ** Background and completion phases *)

Lemma create_work_spec eff d w a n s :
  CreateData.pdalSession d = Some a ->
  sessions w !! a = Some (n, s) ->
  PdalBindings.create_work eff d w =
    (Returned (match raised eff with
               | Some e => CreateData.set_errMsg (caught_message "CREATE" e) d
               | None => d
               end),
     with_sessions (insert a (n, session_after eff)) w).
Proof.
  intros Hp Hs. unfold PdalBindings.create_work, session_call. rewrite Hp. run.
  rewrite Hs. simpl. by destruct (raised eff).
Qed.

Lemma serialize_work_spec eff d w a n s :
  SerializeData.pdalSession d = Some a ->
  sessions w !! a = Some (n, s) ->
  PdalBindings.serialize_work eff d w =
    (Returned (match raised eff with
               | Some e => SerializeData.set_errMsg (caught_message "SERIALIZE" e) d
               | None => d
               end),
     with_sessions (insert a (n, session_after eff)) w).
Proof.
  intros Hp Hs. unfold PdalBindings.serialize_work, session_call. rewrite Hp. run.
  rewrite Hs. simpl. by destruct (raised eff).
Qed.

Lemma read_work_spec run p c w :
  commands w !! p = Some c ->
  PdalBindings.read_work run p w =
    (Returned tt, with_commands (insert p (after_run run c)) w).
Proof.
  intros Hc.
  unfold PdalBindings.read_work, ReadCommand_run, ReadCommand_errMsg, deref. run.
  rewrite Hc. simpl.
  destruct run as [msg np nb dat [e|]]; simpl; [|reflexivity].
  rewrite lookup_insert_eq. simpl. unfold with_commands; simpl.
  by rewrite insert_insert_eq.
Qed.

(** A payload made after [destroy] carries an empty session pointer; its
    background phase dereferences it, which no [catch] clause sees. *)
Lemma create_work_without_session eff d w :
  CreateData.pdalSession d = None ->
  PdalBindings.create_work eff d w = (Crashed, w).
Proof.
  intros Hp. unfold PdalBindings.create_work, session_call. rewrite Hp. reflexivity.
Qed.

(** The completion of a read whose command carries no message: the callback
    is called with the payload and its handle disposed of, and that is
    all. *)
Lemma read_after_work_success p c w :
  commands w !! p = Some c ->
  nonempty (errMsg c) = false ->
  PdalBindings.read_after_work p w =
    (Returned tt,
     with_events (fun l => l ++ [Call (target (callback c)) (success_argv c);
                                 Dispose (handle (callback c))]) w).
Proof.
  intros Hc He. unfold PdalBindings.read_after_work, deref. run.
  rewrite Hc. simpl. rewrite He. unfold rasterize, success_argv.
  destruct (rasterMeta c) as [m|]; unfold Call_, Dispose_; run;
    unfold with_events; simpl; rewrite <- app_assoc; simpl;
    by rewrite ?app_nil_r.
Qed.

(** The completion of a read whose command carries a message: the callback
    is called with the message, the command leaves the registry and is
    deleted. *)
Lemma read_after_work_error p c w :
  commands w !! p = Some c ->
  nonempty (errMsg c) = true ->
  PdalBindings.read_after_work p w =
    (Returned tt,
     with_sessions (release_owner (pdalSession c))
       (with_commands (delete p)
          (with_m_readCommands (delete (readId c))
             (with_events (fun l => l ++ [Call (target (callback c)) [Str (errMsg c)];
                                          Dispose (handle (callback c))]) w)))).
Proof.
  intros Hc He. unfold PdalBindings.read_after_work, deref. run.
  rewrite Hc. simpl. rewrite He.
  unfold errorCallback, eraseSelf, delete_readCommand, deref, shared_release,
    Call_, Dispose_. run.
  rewrite Hc. simpl. unfold with_events; simpl. by rewrite <- app_assoc.
Qed.

(** C2, as the claim has it, fails: a create accepted after [destroy]
    queues a request whose session pointer is empty.  Its background phase
    dereferences the pointer and crashes, whatever the engine would have
    done; the phase does not return, and the callback of the request is
    never called. *)
Lemma orphan_request_is_never_answered :
  PdalBindings.destroy [] world0 = (Returned Undefined, world_destroyed) /\
  (invoke OpCreate good_create_args world_destroyed).1 = Returned Undefined /\
  work_queue (invoke OpCreate good_create_args world_destroyed).2
    = [queued_task OpCreate good_create_args world_destroyed] /\
  task_ready (queued_task OpCreate good_create_args world_destroyed)
    (invoke OpCreate good_create_args world_destroyed).2 = false /\
  PdalBindings.uv_work (queued_task OpCreate good_create_args world_destroyed)
    engine_ok run_ok (invoke OpCreate good_create_args world_destroyed).2
    = (Crashed, (invoke OpCreate good_create_args world_destroyed).2) /\
  events (invoke OpCreate good_create_args world_destroyed).2 = [].
Proof.
  split; [reflexivity|]. split; [reflexivity|]. split; [reflexivity|].
  split; [reflexivity|]. split; reflexivity.
Qed.

(** C2, amended: when the session or the command of a request is there,
    whatever the engine throws in the background phase of a create,
    serialize or read request, the phase returns normally with the
    exception turned into the message of the matching [catch] clause and
    stored in the request: for a [std::runtime_error] its [what()] up to
    the first NUL, for a [std::bad_alloc] the fixed text of the operation
    (the read worker has no clause for it and says "Unknown error"), for
    anything else "Unknown error".  The completion phase then returns
    normally too and calls the callback of the request exactly once, then
    disposes of its handle: with a message that is not empty the call has
    the message as its only argument; a read whose message is empty, also
    when an exception left it so, is answered with the success payload. *)
Theorem background_faults_are_delivered
    (t : Task) (eff : EngineEffect) (run : RunEffect) (w : World) :
  task_ready t w = true ->
  exists t' w1 w2 msg cb argv,
    PdalBindings.uv_work t eff run w = (Returned t', w1) /\
    task_errMsg t' w1 = Some msg /\
    task_callback t' w1 = Some cb /\
    (forall e, task_raised t eff run = Some e ->
       match e with
       | runtime_error what => cut_at_nul msg what
       | bad_alloc =>
           msg = match t with
                 | CreateTask _ => "Memory allocation failed in CREATE"
                 | SerializeTask _ => "Memory allocation failed in SERIALIZE"
                 | ReadTask _ => "Unknown error"
                 end
       | other_exception => msg = "Unknown error"
       end) /\
    PdalBindings.uv_after_work t' w1 = (Returned tt, w2) /\
    events w2 = events w ++ [Call (target cb) argv; Dispose (handle cb)] /\
    argv = completion_argv t' w1 /\
    (nonempty msg = true -> argv = [Str msg]) /\
    (nonempty msg = false ->
       match t with
       | ReadTask _ => exists rest, argv = Null :: rest
       | _ => argv = [Str ""]
       end).
Proof.
  intros Hready. destruct t as [d|d|p]; simpl in Hready.
  - destruct (CreateData.pdalSession d) as [a|] eqn:Hp; [|discriminate].
    apply bool_decide_eq_true in Hready. destruct Hready as [[n s] Hs].
    simpl. unfold mbind at 1, M_bind at 1. rewrite (create_work_spec _ _ _ _ _ _ Hp Hs).
    eexists _, _, _, _, _, _. split; [reflexivity|]. simpl.
    split; [reflexivity|]. split; [reflexivity|]. split.
    { intros e He. rewrite He. destruct e; simpl; [apply c_str_cut|done|done]. }
    unfold PdalBindings.create_after_work, Call_, Dispose_, shared_release. run.
    split; [reflexivity|]. simpl. rewrite <- app_assoc.
    split; [reflexivity|]. split; [reflexivity|]. split; [done|].
    intros ->%nonempty_false. reflexivity.
  - destruct (SerializeData.pdalSession d) as [a|] eqn:Hp; [|discriminate].
    apply bool_decide_eq_true in Hready. destruct Hready as [[n s] Hs].
    simpl. unfold mbind at 1, M_bind at 1. rewrite (serialize_work_spec _ _ _ _ _ _ Hp Hs).
    eexists _, _, _, _, _, _. split; [reflexivity|]. simpl.
    split; [reflexivity|]. split; [reflexivity|]. split.
    { intros e He. rewrite He. destruct e; simpl; [apply c_str_cut|done|done]. }
    unfold PdalBindings.serialize_after_work, Call_, Dispose_, shared_release. run.
    split; [reflexivity|]. simpl. rewrite <- app_assoc.
    split; [reflexivity|]. split; [reflexivity|]. split; [done|].
    intros ->%nonempty_false. reflexivity.
  - apply bool_decide_eq_true in Hready. destruct Hready as [c Hc].
    simpl. unfold mbind at 1, M_bind at 1. rewrite (read_work_spec _ _ _ _ Hc).
    assert (Hc' : commands (with_commands (insert p (after_run run c)) w) !! p
                  = Some (after_run run c)) by apply lookup_insert_eq.
    assert (Hmsg : forall e, run_raised run = Some e ->
              match e with
              | runtime_error what => cut_at_nul (errMsg (after_run run c)) what
              | _ => errMsg (after_run run c) = "Unknown error"
              end).
    { intros e He. simpl. rewrite He. destruct e; simpl; [apply c_str_cut|done|done]. }
    destruct (nonempty (errMsg (after_run run c))) eqn:Hne;
      eexists _, _, _, (errMsg (after_run run c)), (callback c), _;
      (split; [reflexivity|]); cbn [task_errMsg task_callback task_raised];
      (split; [by rewrite Hc'|]);
      (split; [by rewrite Hc'|]);
      (split; [intros e He; specialize (Hmsg e He); by destruct e|]);
      cbn [PdalBindings.uv_after_work completion_argv]; rewrite Hc', Hne.
    + rewrite (read_after_work_error _ _ _ Hc' Hne).
      split; [reflexivity|]. split; [reflexivity|]. split; [reflexivity|].
      split; [done|]. discriminate.
    + rewrite (read_after_work_success _ _ _ Hc' Hne).
      split; [reflexivity|]. split; [reflexivity|]. split; [reflexivity|].
      split; [discriminate|]. intros _. unfold success_argv, PdalBindings.read_argv. by eexists.
Qed.

Lemma background_faults_are_delivered_witness :
  task_ready (ReadTask 0) world_reading = true /\
  exists t' w1 w2 msg cb argv,
    PdalBindings.uv_work (ReadTask 0) engine_ok run_throws world_reading = (Returned t', w1) /\
    task_errMsg t' w1 = Some msg /\
    task_callback t' w1 = Some cb /\
    (forall e, task_raised (ReadTask 0) engine_ok run_throws = Some e ->
       match e with
       | runtime_error what => cut_at_nul msg what
       | bad_alloc => msg = "Unknown error"
       | other_exception => msg = "Unknown error"
       end) /\
    PdalBindings.uv_after_work t' w1 = (Returned tt, w2) /\
    events w2 = events world_reading ++ [Call (target cb) argv; Dispose (handle cb)] /\
    argv = completion_argv t' w1 /\
    (nonempty msg = true -> argv = [Str msg]) /\
    (nonempty msg = false -> exists rest, argv = Null :: rest).
Proof.
  split; [vm_compute; reflexivity|].
  apply (background_faults_are_delivered (ReadTask 0) engine_ok run_throws world_reading).
  vm_compute; reflexivity.
Defined.

(** ** Registration, identifiers and cleanup of reads *)

Lemma read_dispatched validate args w raster fn :
  validate (current_session w) args = Accepted raster fn ->
  registry_alloc_fails w = false ->
  PdalBindings.read validate args w = (Returned Undefined, dispatched w raster fn).
Proof.
  intros Hv Ha. rewrite (read_accepted _ _ _ _ _ Hv), Ha.
  by destruct (m_readCommands w !! next_readId w).
Qed.

Lemma dispatched_command w raster fn :
  commands (dispatched w raster fn) !! next_addr w = Some (fresh_command w raster fn).
Proof. apply lookup_insert_eq. Qed.

(** A dispatched read whose run neither throws nor leaves a message: the
    two phases deliver the payload and change nothing but the command's
    result fields and the events. *)
Lemma dispatched_read_succeeds w raster fn eff run :
  run_raised run = None ->
  run_errMsg run = "" ->
  PdalBindings.uv_run (ReadTask (next_addr w)) eff run (dispatched w raster fn) =
    (Returned tt,
     with_events
       (fun l => l ++ [Call fn (success_argv (after_run run (fresh_command w raster fn)));
                       Dispose (next_handle w)])
       (with_commands (insert (next_addr w) (after_run run (fresh_command w raster fn)))
          (dispatched w raster fn))).
Proof.
  intros Hr Hm. unfold PdalBindings.uv_run. simpl.
  unfold mbind at 1, M_bind at 1. unfold mbind at 1, M_bind at 1.
  rewrite (read_work_spec _ _ _ _ (dispatched_command w raster fn)).
  unfold mret, M_ret, PdalBindings.uv_after_work. cbv beta iota.
  rewrite (read_after_work_success _ (after_run run (fresh_command w raster fn)));
    [reflexivity|apply lookup_insert_eq|].
  unfold after_run. simpl. by rewrite Hr, Hm.
Qed.

(** C1, at the success path of the completion: a read that is accepted,
    registered and queued, and whose run succeeds, has its payload
    delivered to the callback, and after that delivery its command is
    still in the registry under its identifier and still allocated.  The
    success path performs neither the removal nor the deletion that the
    error path performs. *)
Theorem successful_read_stays_registered
    (validate : option PdalSession.t -> list Value -> Verdict)
    (args : list Value) (w : World) (raster : option RasterMeta) (fn : nat)
    (eff : EngineEffect) (run : RunEffect) :
  validate (current_session w) args = Accepted raster fn ->
  registry_alloc_fails w = false ->
  run_raised run = None ->
  run_errMsg run = "" ->
  exists w1 w2 c,
    PdalBindings.read validate args w = (Returned Undefined, w1) /\
    m_readCommands w1 !! next_readId w = Some (next_addr w) /\
    PdalBindings.uv_run (ReadTask (next_addr w)) eff run w1 = (Returned tt, w2) /\
    events w2 = events w1 ++ [Call fn (success_argv c); Dispose (next_handle w)] /\
    m_readCommands w2 !! next_readId w = Some (next_addr w) /\
    commands w2 !! next_addr w = Some c /\
    readId c = next_readId w.
Proof.
  intros Hv Ha Hr Hm.
  eexists _, _, _. split; [apply (read_dispatched _ _ _ _ _ Hv Ha)|].
  split; [apply lookup_insert_eq|].
  split; [apply (dispatched_read_succeeds _ _ _ _ _ Hr Hm)|].
  split; [reflexivity|]. split; [apply lookup_insert_eq|].
  split; [apply lookup_insert_eq|reflexivity].
Qed.

Lemma successful_read_stays_registered_witness :
  accept_any (current_session world_reseeded) [] = Accepted None 7 /\
  registry_alloc_fails world_reseeded = false /\
  run_raised run_ok = None /\
  run_errMsg run_ok = "" /\
  exists w1 w2 c,
    PdalBindings.read accept_any [] world_reseeded = (Returned Undefined, w1) /\
    m_readCommands w1 !! next_readId world_reseeded = Some (next_addr world_reseeded) /\
    PdalBindings.uv_run (ReadTask (next_addr world_reseeded)) engine_ok run_ok w1
      = (Returned tt, w2) /\
    events w2 = events w1 ++ [Call 7 (success_argv c);
                              Dispose (next_handle world_reseeded)] /\
    m_readCommands w2 !! next_readId world_reseeded = Some (next_addr world_reseeded) /\
    commands w2 !! next_addr world_reseeded = Some c /\
    readId c = next_readId world_reseeded.
Proof.
  do 4 (split; [reflexivity|]).
  apply (successful_read_stays_registered accept_any [] world_reseeded None 7
           engine_ok run_ok); reflexivity.
Defined.

(** The error path, for comparison: the same read with a run that throws is
    removed from the registry and deleted on completion. *)
Lemma failed_read_is_cleaned_up w raster fn eff run e :
  run_raised run = Some e ->
  nonempty (read_caught_message e) = true ->
  exists w2,
    PdalBindings.uv_run (ReadTask (next_addr w)) eff run (dispatched w raster fn)
      = (Returned tt, w2) /\
    m_readCommands w2 !! next_readId w = None /\
    commands w2 !! next_addr w = None.
Proof.
  intros Hr Hne. unfold PdalBindings.uv_run. simpl.
  unfold mbind at 1, M_bind at 1. unfold mbind at 1, M_bind at 1.
  rewrite (read_work_spec _ _ _ _ (dispatched_command w raster fn)).
  unfold mret, M_ret, PdalBindings.uv_after_work. cbv beta iota.
  rewrite (read_after_work_error _ (after_run run (fresh_command w raster fn)));
    [|apply lookup_insert_eq|unfold after_run; simpl; by rewrite Hr].
  eexists. split; [reflexivity|]. simpl. split; apply lookup_delete_eq.
Qed.

(** C4, as the claim has it, fails: in the sample world with one read
    outstanding, a second read draws the identifier of the first; its
    insertion does not fail, and the entry of the first command (address 0)
    is replaced by the second (address 1). *)
Lemma duplicate_identifier_replaces_entry :
  m_readCommands world_reading !! next_readId world_reading = Some 0%nat /\
  (PdalBindings.read accept_any [] world_reading).1 = Returned Undefined /\
  m_readCommands (PdalBindings.read accept_any [] world_reading).2
    !! next_readId world_reading = Some 1%nat.
Proof. vm_compute. repeat split. Qed.

(** C4, amended: the insertion made by an accepted read does not look for
    an existing entry.  It fails, with read throwing "Could not lock
    readCommands" and the registry unchanged, only when the identifier is
    absent and the node for it cannot be allocated; in every other case,
    the identifier being present included, read returns and the registry
    maps the identifier to the new command, all other entries unchanged. *)
Theorem read_registration
    (validate : option PdalSession.t -> list Value -> Verdict)
    (args : list Value) (w : World) (raster : option RasterMeta) (fn : nat) :
  validate (current_session w) args = Accepted raster fn ->
  exists w',
    match m_readCommands w !! next_readId w, registry_alloc_fails w with
    | None, true =>
        PdalBindings.read validate args w =
          (Thrown (runtime_error "Could not lock readCommands"), w') /\
        m_readCommands w' = m_readCommands w
    | _, _ =>
        PdalBindings.read validate args w = (Returned Undefined, w') /\
        m_readCommands w' = <[next_readId w := next_addr w]> (m_readCommands w)
    end.
Proof.
  intros Hv. rewrite (read_accepted _ _ _ _ _ Hv).
  destruct (m_readCommands w !! next_readId w) as [p0|];
    [|destruct (registry_alloc_fails w)]; eexists; split; reflexivity.
Qed.

Lemma read_registration_witness :
  accept_any (current_session world_reading) [] = Accepted None 7 /\
  exists w',
    match m_readCommands world_reading !! next_readId world_reading,
          registry_alloc_fails world_reading with
    | None, true =>
        PdalBindings.read accept_any [] world_reading =
          (Thrown (runtime_error "Could not lock readCommands"), w') /\
        m_readCommands w' = m_readCommands world_reading
    | _, _ =>
        PdalBindings.read accept_any [] world_reading = (Returned Undefined, w') /\
        m_readCommands w' =
          <[next_readId world_reading := next_addr world_reading]>
            (m_readCommands world_reading)
    end.
Proof.
  split; [reflexivity|].
  apply (read_registration accept_any [] world_reading None 7). reflexivity.
Defined.

(** C5, as the claim has it, fails: a read dispatched in the sample world
    is queued under a fresh identifier, and returns [undefined], not that
    identifier. *)
Lemma read_returns_undefined_not_identifier :
  (generateReadId world0).1 = Returned "6E1BBB2B46DFCC171F1E62F7" /\
  work_queue (PdalBindings.read accept_any [] world0).2 = [ReadTask 0] /\
  (PdalBindings.read accept_any [] world0).1 = Returned Undefined /\
  (PdalBindings.read accept_any [] world0).1 <> Returned (Str "6E1BBB2B46DFCC171F1E62F7").
Proof. vm_compute. repeat split. discriminate. Qed.

(** C5, amended: a successfully dispatched read returns [undefined] to its
    caller.  The freshly generated identifier is stored in the new command,
    which is queued, and reaches the caller as the second argument of the
    callback when the read completes successfully. *)
Theorem read_returns_undefined
    (validate : option PdalSession.t -> list Value -> Verdict)
    (args : list Value) (w : World) (raster : option RasterMeta) (fn : nat) :
  validate (current_session w) args = Accepted raster fn ->
  registry_alloc_fails w = false ->
  exists id w' c,
    (generateReadId w).1 = Returned id /\
    PdalBindings.read validate args w = (Returned Undefined, w') /\
    work_queue w' = work_queue w ++ [ReadTask (next_addr w)] /\
    commands w' !! next_addr w = Some c /\
    readId c = id /\
    forall eff run,
      run_raised run = None ->
      run_errMsg run = "" ->
      exists w'' argv,
        PdalBindings.uv_run (ReadTask (next_addr w)) eff run w' = (Returned tt, w'') /\
        events w'' = events w' ++ [Call fn argv; Dispose (next_handle w)] /\
        argv !! 1%nat = Some (Str id).
Proof.
  intros Hv Ha.
  exists (next_readId w), (dispatched w raster fn), (fresh_command w raster fn).
  split; [by rewrite generateReadId_next|].
  split; [apply (read_dispatched _ _ _ _ _ Hv Ha)|].
  split; [reflexivity|]. split; [apply dispatched_command|]. split; [reflexivity|].
  intros eff run Hr Hm. eexists _, _.
  split; [apply (dispatched_read_succeeds _ _ _ _ _ Hr Hm)|].
  split; reflexivity.
Qed.

Lemma read_returns_undefined_witness :
  accept_any (current_session world0) [] = Accepted None 7 /\
  registry_alloc_fails world0 = false /\
  exists id w' c,
    (generateReadId world0).1 = Returned id /\
    PdalBindings.read accept_any [] world0 = (Returned Undefined, w') /\
    work_queue w' = work_queue world0 ++ [ReadTask (next_addr world0)] /\
    commands w' !! next_addr world0 = Some c /\
    readId c = id /\
    forall eff run,
      run_raised run = None ->
      run_errMsg run = "" ->
      exists w'' argv,
        PdalBindings.uv_run (ReadTask (next_addr world0)) eff run w' = (Returned tt, w'') /\
        events w'' = events w' ++ [Call 7 argv; Dispose (next_handle world0)] /\
        argv !! 1%nat = Some (Str id).
Proof.
  do 2 (split; [reflexivity|]).
  apply (read_returns_undefined accept_any [] world0 None 7); reflexivity.
Defined.

(** Distinct positions of [hexValues] hold distinct digits. *)
Lemma hex_digit_inj r1 r2 : hex_digit r1 = hex_digit r2 <-> hex_index r1 = hex_index r2.
Proof.
  unfold hex_digit. split; [|by intros ->].
  pose proof (hex_index_lt r1) as H1. pose proof (hex_index_lt r2) as H2.
  generalize dependent (hex_index r2). generalize dependent (hex_index r1).
  intros i Hi j Hj.
  do 16 (destruct i as [|i]; [do 16 (destruct j as [|j]; [done|]); lia|]); lia.
Qed.

(** Two identifiers are the same exactly when, position by position, the
    values of [rand()] they were drawn from select the same digit. *)
Lemma drawn_eq_iff rs1 rs2 todo : forall p1 p2,
  drawn rs1 p1 todo = drawn rs2 p2 todo <->
  forall k, (k < todo)%nat -> hex_index (rs1 (p1 + k)%nat) = hex_index (rs2 (p2 + k)%nat).
Proof.
  induction todo as [|todo IH]; intros p1 p2; simpl.
  - split; [intros _ k Hk; lia|done].
  - split.
    + intros H k Hk. injection H as Hd Ht. destruct k as [|k].
      * rewrite !Nat.add_0_r. by apply hex_digit_inj.
      * rewrite !Nat.add_succ_r. apply (proj1 (IH (S p1) (S p2)) Ht k). lia.
    + intros H. f_equal.
      * apply hex_digit_inj. specialize (H O ltac:(lia)). by rewrite !Nat.add_0_r in H.
      * apply IH. intros k Hk. specialize (H (S k) ltac:(lia)).
        by rewrite !Nat.add_succ_r in H.
Qed.

Lemma next_readId_eq_iff w1 w2 :
  next_readId w1 = next_readId w2 <->
  forall k, (k < readIdSize)%nat ->
    hex_index (rand_seq w1 (rand_pos w1 + k)%nat) = hex_index (rand_seq w2 (rand_pos w2 + k)%nat).
Proof.
  rewrite <- drawn_eq_iff. unfold next_readId. split; [|by intros ->].
  intros H. apply (f_equal list_ascii_of_string) in H.
  by rewrite !list_ascii_of_string_of_list_ascii in H.
Qed.

(** C7, as the claim has it, fails: with [rand()] reseeded between two
    reads of the sample world, both reads are dispatched, neither is
    rejected, and their two commands carry the same identifier. *)
Lemma concurrent_reads_share_identifier :
  (PdalBindings.read accept_any [] world_reseeded).1 = Returned Undefined /\
  (PdalBindings.read accept_any [] world_reading).1 = Returned Undefined /\
  work_queue world_reading_twice = [ReadTask 0; ReadTask 1] /\
  readId <$> commands world_reading_twice !! 0%nat = Some "6E1BBB2B46DFCC171F1E62F7" /\
  readId <$> commands world_reading_twice !! 1%nat = Some "6E1BBB2B46DFCC171F1E62F7".
Proof. vm_compute. repeat split. Qed.

(** C7, amended: a read dispatched while another is outstanding receives
    the identifier of that other read exactly when [rand()] yields that
    identifier's 24 digits again; nothing in generation excludes it and
    registration does not reject it: the read returns normally, both
    commands stay allocated, the new one is queued, and the registry maps
    its identifier to it, whoever held that entry before. *)
Theorem reads_collide_when_rand_repeats
    (validate : option PdalSession.t -> list Value -> Verdict)
    (args : list Value) (w : World) (raster : option RasterMeta) (fn : nat)
    (p0 : nat) (c0 : ReadCommand) :
  validate (current_session w) args = Accepted raster fn ->
  registry_alloc_fails w = false ->
  commands w !! p0 = Some c0 ->
  (p0 < next_addr w)%nat ->
  exists w' c1,
    PdalBindings.read validate args w = (Returned Undefined, w') /\
    commands w' !! p0 = Some c0 /\
    commands w' !! next_addr w = Some c1 /\
    (readId c1 = readId c0 <->
     list_ascii_of_string (readId c0) = drawn (rand_seq w) (rand_pos w) readIdSize) /\
    work_queue w' = work_queue w ++ [ReadTask (next_addr w)] /\
    m_readCommands w' !! readId c1 = Some (next_addr w).
Proof.
  intros Hv Ha Hc0 Hlt.
  exists (dispatched w raster fn), (fresh_command w raster fn).
  split; [apply (read_dispatched _ _ _ _ _ Hv Ha)|].
  split.
  { change (commands (dispatched w raster fn))
      with (<[next_addr w := fresh_command w raster fn]> (commands w)).
    rewrite lookup_insert_ne by lia. exact Hc0. }
  split; [apply dispatched_command|].
  split; [|split; [reflexivity|apply lookup_insert_eq]].
  change (readId (fresh_command w raster fn)) with (next_readId w).
  unfold next_readId. split; intros H; rewrite <- H.
  - apply list_ascii_of_string_of_list_ascii.
  - apply string_of_list_ascii_of_string.
Qed.

Lemma reads_collide_when_rand_repeats_witness :
  accept_any (current_session world_reading) [] = Accepted None 7 /\
  registry_alloc_fails world_reading = false /\
  commands world_reading !! 0%nat = Some (fresh_command world_reseeded None 7) /\
  (0 < next_addr world_reading)%nat /\
  exists w' c1,
    PdalBindings.read accept_any [] world_reading = (Returned Undefined, w') /\
    commands w' !! 0%nat = Some (fresh_command world_reseeded None 7) /\
    commands w' !! next_addr world_reading = Some c1 /\
    (readId c1 = readId (fresh_command world_reseeded None 7) <->
     list_ascii_of_string (readId (fresh_command world_reseeded None 7)) =
       drawn (rand_seq world_reading) (rand_pos world_reading) readIdSize) /\
    work_queue w' = work_queue world_reading ++ [ReadTask (next_addr world_reading)] /\
    m_readCommands w' !! readId c1 = Some (next_addr world_reading).
Proof.
  split; [reflexivity|]. split; [reflexivity|].
  split; [vm_compute; reflexivity|]. split; [vm_compute; lia|].
  apply (reads_collide_when_rand_repeats accept_any [] world_reading None 7
           0%nat (fresh_command world_reseeded None 7));
    [reflexivity | reflexivity | vm_compute; reflexivity | vm_compute; lia].
Defined.

(** * Further properties of the bindings *)

(** ** Path lists *)

Lemma parsePathList_array l :
  parsePathList (Array l) =
    omap (fun v => if IsString v then Some (Utf8Value v) else None) l.
Proof. reflexivity. Qed.

(** X1: an array of strings is read back as one path per element, in
    order: the element cut before its first NUL, so the element itself when
    it holds none. *)
Theorem parsePathList_strings (paths : list string) :
  Forall2 cut_at_nul (parsePathList (Array (map Str paths))) paths.
Proof.
  rewrite parsePathList_array.
  induction paths as [|p paths IH]; simpl; constructor; [apply c_str_cut|exact IH].
Qed.


(** ** Dispatch of create, parse and serialize *)

Lemma accepted_args_callback op args :
  accepted_args op args = true ->
  arg args (callback_position op) = Function (callback_fn op args).
Proof.
  unfold accepted_args, callback_fn. intros H. apply andb_true_iff in H as [H _].
  by destruct (arg args (callback_position op)).
Qed.

Lemma accepted_args_errMsg args :
  IsString (arg args 0) && IsString (arg args 1) = true ->
  PdalBindings.doInitialize_errMsg args = "".
Proof.
  intros H. apply andb_true_iff in H as [H0 H1].
  unfold PdalBindings.doInitialize_errMsg.
  destruct (arg args 0); try discriminate. by destruct (arg args 1).
Qed.

(** What an accepted call does, as one equation per operation. *)
Lemma doInitialize_accepted args execute w :
  IsFunction (arg args 3) = true ->
  IsString (arg args 0) && IsString (arg args 1) = true ->
  PdalBindings.doInitialize args execute w =
    (Returned tt,
     with_work_queue
       (fun q => q ++ [queued_task (if execute then OpCreate else OpParse) args w])
       (with_sessions (add_owner (m_pdalSession w))
          (with_next_handle (S (next_handle w)) w))).
Proof.
  intros Hcb Hstr. unfold PdalBindings.doInitialize.
  rewrite (accepted_args_errMsg _ Hstr).
  destruct (arg args 3) as [| | | | |fn| |] eqn:E; try discriminate.
  destruct execute; unfold queued_task, callback_fn; simpl; by rewrite E.
Qed.

Lemma serialize_accepted args w :
  IsFunction (arg args 1) = true ->
  PdalBindings.serialize args w =
    (Returned Undefined,
     with_work_queue (fun q => q ++ [queued_task OpSerialize args w])
       (with_sessions (add_owner (m_pdalSession w))
          (with_next_handle (S (next_handle w)) w))).
Proof.
  intros Hcb. unfold PdalBindings.serialize.
  destruct (arg args 1) as [| | | | |fn| |] eqn:E; try discriminate.
  unfold queued_task, callback_fn. simpl. by rewrite E.
Qed.

(** What an accepted call does, for the three operations at once. *)
Lemma invoke_accepted op args w :
  accepted_args op args = true ->
  invoke op args w = (Returned Undefined, after_accepted op args w).
Proof.
  intros H. unfold accepted_args in H. apply andb_true_iff in H as [Hcb Hstr].
  destruct op; simpl in *.
  - unfold PdalBindings.create, mbind, M_bind.
    by rewrite (doInitialize_accepted _ true _ Hcb Hstr).
  - unfold PdalBindings.parse, mbind at 1, M_bind at 1.
    by rewrite (doInitialize_accepted _ false _ Hcb Hstr).
  - by rewrite (serialize_accepted _ _ Hcb).
Qed.

(** X3: a create, parse or serialize call whose arguments are accepted
    returns [undefined] without calling the callback: it queues exactly one
    request and takes a share of the session for it.  The request carries
    a fresh handle on the callback, the paths read from the path argument
    and, for create and parse, the two strings given, each cut before its
    first NUL.  Commands and registry are not touched.  Serialize accepts
    whatever stands in the path position. *)
Theorem accepted_call_dispatches (op : AsyncOp) (args : list Value) (w : World) :
  accepted_args op args = true ->
  exists w',
    invoke op args w = (Returned Undefined, w') /\
    work_queue w' = work_queue w ++ [queued_task op args w] /\
    events w' = events w /\
    next_handle w' = S (next_handle w) /\
    commands w' = commands w /\
    m_readCommands w' = m_readCommands w /\
    m_pdalSession w' = match op with OpParse => None | _ => m_pdalSession w end /\
    sessions w' =
      match op with
      | OpParse => release_owner (m_pdalSession w) (add_owner (m_pdalSession w) (sessions w))
      | _ => add_owner (m_pdalSession w) (sessions w)
      end /\
    match op with
    | OpSerialize => True
    | _ => exists s0 s1 d,
             arg args 0 = Str s0 /\ arg args 1 = Str s1 /\
             queued_task op args w = CreateTask d /\
             cut_at_nul (CreateData.pipelineId d) s0 /\
             cut_at_nul (CreateData.pipeline d) s1
    end.
Proof.
  intros H. exists (after_accepted op args w).
  split; [by apply invoke_accepted|].
  assert (Hstr : match op with
                 | OpSerialize => True
                 | _ => exists s0 s1 d,
                          arg args 0 = Str s0 /\ arg args 1 = Str s1 /\
                          queued_task op args w = CreateTask d /\
                          cut_at_nul (CreateData.pipelineId d) s0 /\
                          cut_at_nul (CreateData.pipeline d) s1
                 end).
  { unfold accepted_args in H. apply andb_true_iff in H as [_ H].
    destruct op; [| |done];
      apply andb_true_iff in H as [H0 H1];
      unfold queued_task;
      (destruct (arg args 0) as [| |s0| | | | |]; try discriminate);
      (destruct (arg args 1) as [| |s1| | | | |]; try discriminate);
      (eexists s0, s1, _; split; [done|]; split; [done|]; split; [reflexivity|];
       split; apply c_str_cut). }
  destruct op; repeat split; exact Hstr.
Qed.

Lemma accepted_call_dispatches_witness :
  accepted_args OpCreate good_create_args = true /\
  exists w',
    invoke OpCreate good_create_args world0 = (Returned Undefined, w') /\
    work_queue w' = work_queue world0 ++ [queued_task OpCreate good_create_args world0] /\
    events w' = events world0 /\
    next_handle w' = S (next_handle world0) /\
    commands w' = commands world0 /\
    m_readCommands w' = m_readCommands world0 /\
    m_pdalSession w' = m_pdalSession world0 /\
    sessions w' = add_owner (m_pdalSession world0) (sessions world0) /\
    exists s0 s1 d,
      arg good_create_args 0 = Str s0 /\ arg good_create_args 1 = Str s1 /\
      queued_task OpCreate good_create_args world0 = CreateTask d /\
      cut_at_nul (CreateData.pipelineId d) s0 /\
      cut_at_nul (CreateData.pipeline d) s1.
Proof.
  split; [reflexivity|].
  apply (accepted_call_dispatches OpCreate good_create_args world0). reflexivity.
Defined.

(** ** Shares of the session *)

Lemma add_owner_live a n s (h : gmap nat (nat * PdalSession.t)) :
  h !! a = Some (n, s) -> add_owner (Some a) h = <[a := (S n, s)]> h.
Proof.
  intros Hl. unfold add_owner. apply map_eq. intros k.
  destruct (decide (k = a)) as [->|Hne].
  - by rewrite lookup_alter_eq, lookup_insert_eq, Hl.
  - by rewrite lookup_alter_ne, lookup_insert_ne.
Qed.

Lemma release_owner_insert a n s (h : gmap nat (nat * PdalSession.t)) :
  release_owner (Some a) (<[a := (S n, s)]> h) =
    match n with
    | O => delete a h
    | S _ => <[a := (n, s)]> h
    end.
Proof.
  unfold release_owner. rewrite lookup_insert_eq.
  destruct n; [apply delete_insert_eq | apply insert_insert_eq].
Qed.

(** Taking a share and giving it back leaves the session table as it
    was. *)
Lemma release_add_owner a n s (h : gmap nat (nat * PdalSession.t)) :
  h !! a = Some (S n, s) -> release_owner (Some a) (add_owner (Some a) h) = h.
Proof.
  intros Hl. rewrite (add_owner_live _ _ _ _ Hl), release_owner_insert.
  by apply insert_id.
Qed.

(** Both phases of a create, parse or serialize request that finds its
    session. *)
Lemma uv_run_request op args w0 w a n s eff run :
  m_pdalSession w0 = Some a ->
  sessions w !! a = Some (n, s) ->
  PdalBindings.uv_run (queued_task op args w0) eff run w =
    (Returned tt,
     with_sessions (release_owner (Some a))
       (with_events
          (fun l => l ++ [Call (callback_fn op args) [Str (completion_message op eff)];
                          Dispose (next_handle w0)])
          (with_sessions (insert a (n, session_after eff)) w))).
Proof.
  intros Hp Hs. unfold PdalBindings.uv_run, completion_message.
  destruct op; simpl; unfold mbind at 1, M_bind at 1; unfold mbind at 1, M_bind at 1;
    [erewrite create_work_spec by (simpl; eauto)
    |erewrite create_work_spec by (simpl; eauto)
    |erewrite serialize_work_spec by (simpl; eauto)];
    rewrite Hp; destruct (raised eff); simpl;
    unfold PdalBindings.create_after_work, PdalBindings.serialize_after_work,
      Call_, Dispose_, shared_release; run;
    unfold with_events, with_sessions; simpl; by rewrite <- app_assoc.
Qed.

Lemma uv_run_request_sessions op args w0 w a k s eff run :
  m_pdalSession w0 = Some a ->
  sessions w !! a = Some (S k, s) ->
  exists w2,
    PdalBindings.uv_run (queued_task op args w0) eff run w = (Returned tt, w2) /\
    events w2 = events w ++ [Call (callback_fn op args) [Str (completion_message op eff)];
                             Dispose (next_handle w0)] /\
    sessions w2 = match k with
                  | O => delete a (sessions w)
                  | S _ => <[a := (k, session_after eff)]> (sessions w)
                  end.
Proof.
  intros Hp Hs. eexists. split; [apply (uv_run_request _ _ _ _ _ _ _ _ _ Hp Hs)|].
  split; [reflexivity|].
  cbn [sessions with_sessions with_events]. apply release_owner_insert.
Qed.

(** X4: an accepted create, parse or serialize on a binding that holds its
    session, followed by the two phases of the request it queued: both
    phases return, the callback is called exactly once, with the empty
    string unless the engine threw, and its handle is disposed of.  A
    create or serialize request gives back the share of the session it
    took, so the use count ends where it started; a parse request ends
    holding what was the binding's share, and its completion deletes the
    session if nobody else owns it. *)
Theorem request_returns_its_share
    (op : AsyncOp) (args : list Value) (w : World) (a n : nat) (s : PdalSession.t)
    (eff : EngineEffect) (run : RunEffect) :
  accepted_args op args = true ->
  m_pdalSession w = Some a ->
  sessions w !! a = Some (S n, s) ->
  exists w1 w2,
    invoke op args w = (Returned Undefined, w1) /\
    PdalBindings.uv_run (queued_task op args w) eff run w1 = (Returned tt, w2) /\
    events w2 = events w ++ [Call (callback_fn op args) [Str (completion_message op eff)];
                             Dispose (next_handle w)] /\
    sessions w2 =
      match op, n with
      | OpParse, O => delete a (sessions w)
      | OpParse, S n' => <[a := (S n', session_after eff)]> (sessions w)
      | _, _ => <[a := (S n, session_after eff)]> (sessions w)
      end.
Proof.
  intros Hacc Hp Hs.
  pose proof (invoke_accepted op args w Hacc) as Hcall.
  set (w1 := after_accepted op args w) in *.
  assert (Hev : events w1 = events w) by (by destruct op).
  assert (Hses : sessions w1 =
                 match op with
                 | OpParse => release_owner (m_pdalSession w)
                                (add_owner (m_pdalSession w) (sessions w))
                 | _ => add_owner (m_pdalSession w) (sessions w)
                 end) by (by destruct op).
  rewrite Hp in Hses.
  destruct op;
    rewrite ?(release_add_owner _ _ _ _ Hs), ?(add_owner_live _ _ _ _ Hs) in Hses.
  - destruct (uv_run_request_sessions OpCreate args w w1 a (S n) s eff run Hp)
      as (w2 & Hrun & Hev2 & Hses2); [rewrite Hses; apply lookup_insert_eq|].
    exists w1, w2. split; [done|]. split; [done|]. split; [by rewrite Hev2, Hev|].
    by rewrite Hses2, Hses, insert_insert_eq.
  - destruct (uv_run_request_sessions OpParse args w w1 a n s eff run Hp)
      as (w2 & Hrun & Hev2 & Hses2); [by rewrite Hses|].
    exists w1, w2. split; [done|]. split; [done|]. split; [by rewrite Hev2, Hev|].
    rewrite Hses2, Hses. by destruct n.
  - destruct (uv_run_request_sessions OpSerialize args w w1 a (S n) s eff run Hp)
      as (w2 & Hrun & Hev2 & Hses2); [rewrite Hses; apply lookup_insert_eq|].
    exists w1, w2. split; [done|]. split; [done|]. split; [by rewrite Hev2, Hev|].
    by rewrite Hses2, Hses, insert_insert_eq.
Qed.

Lemma request_returns_its_share_witness :
  accepted_args OpParse good_create_args = true /\
  m_pdalSession world0 = Some 0%nat /\
  sessions world0 !! 0%nat = Some (1%nat, session0) /\
  exists w1 w2,
    invoke OpParse good_create_args world0 = (Returned Undefined, w1) /\
    PdalBindings.uv_run (queued_task OpParse good_create_args world0) engine_ok run_ok w1
      = (Returned tt, w2) /\
    events w2 = events world0
                ++ [Call (callback_fn OpParse good_create_args)
                      [Str (completion_message OpParse engine_ok)];
                    Dispose (next_handle world0)] /\
    sessions w2 = delete 0%nat (sessions world0).
Proof.
  do 3 (split; [reflexivity|]).
  apply (request_returns_its_share OpParse good_create_args world0 0 0 session0
           engine_ok run_ok); reflexivity.
Defined.

Lemma destroy_equation args w :
  PdalBindings.destroy args w =
    (Returned Undefined,
     with_m_pdalSession None (with_sessions (release_owner (m_pdalSession w)) w)).
Proof. reflexivity. Qed.

(** X5: [destroy] while a create, parse or serialize request is in flight
    does not disturb the request.  The binding loses its session at once,
    but the session itself stays allocated for the request; the request
    then runs both phases normally, calls the callback exactly once, and
    its completion gives up the last share: the session is deleted then,
    unless other owners remain. *)
Theorem destroy_in_flight
    (op : AsyncOp) (args dargs : list Value) (w : World) (a n : nat)
    (s : PdalSession.t) (eff : EngineEffect) (run : RunEffect) :
  accepted_args op args = true ->
  m_pdalSession w = Some a ->
  sessions w !! a = Some (S n, s) ->
  exists w1 w2 w3,
    invoke op args w = (Returned Undefined, w1) /\
    PdalBindings.destroy dargs w1 = (Returned Undefined, w2) /\
    m_pdalSession w2 = None /\
    sessions w2 !! a = Some (S n, s) /\
    PdalBindings.uv_run (queued_task op args w) eff run w2 = (Returned tt, w3) /\
    events w3 = events w ++ [Call (callback_fn op args) [Str (completion_message op eff)];
                             Dispose (next_handle w)] /\
    sessions w3 = match n with
                  | O => delete a (sessions w)
                  | S _ => <[a := (n, session_after eff)]> (sessions w)
                  end.
Proof.
  intros Hacc Hp Hs.
  pose proof (invoke_accepted op args w Hacc) as Hcall.
  set (w1 := after_accepted op args w) in *.
  assert (Hev : events w1 = events w) by (by destruct op).
  assert (Hptr : m_pdalSession w1 = match op with OpParse => None | _ => m_pdalSession w end)
    by (by destruct op).
  assert (Hses : sessions w1 =
                 match op with
                 | OpParse => release_owner (m_pdalSession w)
                                (add_owner (m_pdalSession w) (sessions w))
                 | _ => add_owner (m_pdalSession w) (sessions w)
                 end) by (by destruct op).
  rewrite Hp in Hses, Hptr.
  set (w2 := with_m_pdalSession None (with_sessions (release_owner (m_pdalSession w1)) w1)).
  assert (Hses2 : sessions w2 = sessions w).
  { change (sessions w2) with (release_owner (m_pdalSession w1) (sessions w1)).
    rewrite Hptr, Hses. destruct op; simpl; apply (release_add_owner _ _ _ _ Hs). }
  destruct (uv_run_request_sessions op args w w2 a n s eff run Hp)
    as (w3 & Hrun & Hev3 & Hses3); [by rewrite Hses2|].
  exists w1, w2, w3. split; [done|]. split; [apply destroy_equation|].
  split; [done|]. split; [by rewrite Hses2|]. split; [done|].
  split; [rewrite Hev3; by rewrite <- Hev|]. by rewrite Hses3, Hses2.
Qed.

Lemma destroy_in_flight_witness :
  accepted_args OpCreate good_create_args = true /\
  m_pdalSession world0 = Some 0%nat /\
  sessions world0 !! 0%nat = Some (1%nat, session0) /\
  exists w1 w2 w3,
    invoke OpCreate good_create_args world0 = (Returned Undefined, w1) /\
    PdalBindings.destroy [] w1 = (Returned Undefined, w2) /\
    m_pdalSession w2 = None /\
    sessions w2 !! 0%nat = Some (1%nat, session0) /\
    PdalBindings.uv_run (queued_task OpCreate good_create_args world0) engine_ok run_ok w2
      = (Returned tt, w3) /\
    events w3 = events world0
                ++ [Call (callback_fn OpCreate good_create_args)
                      [Str (completion_message OpCreate engine_ok)];
                    Dispose (next_handle world0)] /\
    sessions w3 = delete 0%nat (sessions world0).
Proof.
  do 3 (split; [reflexivity|]).
  apply (destroy_in_flight OpCreate good_create_args [] world0 0 0 session0
           engine_ok run_ok); reflexivity.
Defined.

(** X6: a create, parse or serialize call on a binding that has already
    given up its session (after [destroy] or [parse]) is accepted all the
    same: it returns [undefined] and queues a request, without any call to
    the callback.  The background phase of that request then dereferences
    the empty session pointer: it crashes, and the callback is never
    called. *)
Theorem request_without_session_crashes
    (op : AsyncOp) (args : list Value) (w : World)
    (eff : EngineEffect) (run : RunEffect) :
  accepted_args op args = true ->
  m_pdalSession w = None ->
  exists w1,
    invoke op args w = (Returned Undefined, w1) /\
    work_queue w1 = work_queue w ++ [queued_task op args w] /\
    events w1 = events w /\
    PdalBindings.uv_run (queued_task op args w) eff run w1 = (Crashed, w1).
Proof.
  intros Hacc Hp.
  pose proof (invoke_accepted op args w Hacc) as Hcall.
  set (w1 := after_accepted op args w) in *.
  assert (Hq : work_queue w1 = work_queue w ++ [queued_task op args w]) by (by destruct op).
  assert (Hev : events w1 = events w) by (by destruct op).
  exists w1. split; [done|]. split; [done|]. split; [done|].
  unfold PdalBindings.uv_run, queued_task. rewrite Hp.
  destruct op; reflexivity.
Qed.

Lemma request_without_session_crashes_witness :
  accepted_args OpCreate good_create_args = true /\
  m_pdalSession world_destroyed = None /\
  exists w1,
    invoke OpCreate good_create_args world_destroyed = (Returned Undefined, w1) /\
    work_queue w1 = work_queue world_destroyed
                    ++ [queued_task OpCreate good_create_args world_destroyed] /\
    events w1 = events world_destroyed /\
    PdalBindings.uv_run (queued_task OpCreate good_create_args world_destroyed)
      engine_ok run_ok w1 = (Crashed, w1).
Proof.
  do 2 (split; [reflexivity|]).
  apply (request_without_session_crashes OpCreate good_create_args world_destroyed
           engine_ok run_ok); reflexivity.
Defined.

(** ** Reads that are not dispatched *)

(** What a rejected read does. *)
Lemma read_rejected validate args w msg fn :
  validate (current_session w) args = Rejected msg fn ->
  PdalBindings.read validate args w = (Returned Undefined, after_rejected msg fn w).
Proof.
  intros Hv. unfold PdalBindings.read.
  unfold mbind at 1, M_bind at 1. rewrite generateReadId_next.
  unfold PdalBindings.ReadCommandFactory_create. run.
  change (current_session (with_rand_pos (rand_pos w + readIdSize) w))
    with (current_session w).
  rewrite Hv. destruct fn as [f|]; [|reflexivity].
  unfold Persistent_New, errorCallback, Call_, Dispose_. run.
  unfold after_rejected, with_events. simpl. by rewrite <- app_assoc.
Qed.

(** X7: a read the factory rejects returns [undefined] with nothing
    constructed, registered or queued, although the 24 values of [rand()]
    for its identifier have been drawn by then.  The error reaches the
    caller only if the factory found a callback among the arguments: then
    it is called once with the message; otherwise the call leaves no trace
    at all. *)
Theorem rejected_read_leaves_no_state
    (validate : option PdalSession.t -> list Value -> Verdict)
    (args : list Value) (w : World) (msg : string) (fn : option nat) :
  validate (current_session w) args = Rejected msg fn ->
  exists w',
    PdalBindings.read validate args w = (Returned Undefined, w') /\
    commands w' = commands w /\
    next_addr w' = next_addr w /\
    m_readCommands w' = m_readCommands w /\
    work_queue w' = work_queue w /\
    sessions w' = sessions w /\
    m_pdalSession w' = m_pdalSession w /\
    rand_pos w' = (rand_pos w + 24)%nat /\
    events w' = events w ++ match fn with
                            | Some f => [Call f [Str msg]; Dispose (next_handle w)]
                            | None => []
                            end.
Proof.
  intros Hv. exists (after_rejected msg fn w).
  split; [by apply read_rejected|].
  destruct fn; simpl; rewrite ?app_nil_r; repeat split.
Qed.

Lemma rejected_read_leaves_no_state_witness :
  reject_any (current_session world0) [] = Rejected "Invalid arguments" None /\
  exists w',
    PdalBindings.read reject_any [] world0 = (Returned Undefined, w') /\
    commands w' = commands world0 /\
    next_addr w' = next_addr world0 /\
    m_readCommands w' = m_readCommands world0 /\
    work_queue w' = work_queue world0 /\
    sessions w' = sessions world0 /\
    m_pdalSession w' = m_pdalSession world0 /\
    rand_pos w' = (rand_pos world0 + 24)%nat /\
    events w' = events world0 ++ [].
Proof.
  split; [reflexivity|].
  apply (rejected_read_leaves_no_state reject_any [] world0 "Invalid arguments" None).
  reflexivity.
Defined.

(** X8: when the registry update of an accepted read throws, read throws
    "Could not lock readCommands" and gives up, but the command the
    factory constructed is not deleted: it stays allocated with its share
    of the session, in no registry entry and in no queue, and its callback
    is never called. *)
Theorem failed_registration_leaks_command
    (validate : option PdalSession.t -> list Value -> Verdict)
    (args : list Value) (w : World) (raster : option RasterMeta) (fn : nat) :
  validate (current_session w) args = Accepted raster fn ->
  m_readCommands w !! next_readId w = None ->
  registry_alloc_fails w = true ->
  exists w',
    PdalBindings.read validate args w =
      (Thrown (runtime_error "Could not lock readCommands"), w') /\
    commands w' !! next_addr w = Some (fresh_command w raster fn) /\
    sessions w' = add_owner (m_pdalSession w) (sessions w) /\
    m_readCommands w' = m_readCommands w /\
    work_queue w' = work_queue w /\
    events w' = events w.
Proof.
  intros Hv Hn Hf. rewrite (read_accepted _ _ _ _ _ Hv), Hn, Hf.
  eexists. split; [reflexivity|]. split; [apply lookup_insert_eq|]. repeat split.
Qed.

Lemma failed_registration_leaks_command_witness :
  accept_any (current_session world_full) [] = Accepted None 7 /\
  m_readCommands world_full !! next_readId world_full = None /\
  registry_alloc_fails world_full = true /\
  exists w',
    PdalBindings.read accept_any [] world_full =
      (Thrown (runtime_error "Could not lock readCommands"), w') /\
    commands w' !! next_addr world_full = Some (fresh_command world_full None 7) /\
    sessions w' = add_owner (m_pdalSession world_full) (sessions world_full) /\
    m_readCommands w' = m_readCommands world_full /\
    work_queue w' = work_queue world_full /\
    events w' = events world_full.
Proof.
  split; [reflexivity|]. split; [vm_compute; reflexivity|]. split; [reflexivity|].
  apply (failed_registration_leaks_command accept_any [] world_full None 7);
    [reflexivity | vm_compute; reflexivity | reflexivity].
Defined.

(** ** Completion of reads *)

(** X9: the callback of a read that completes without message is called
    once and its handle disposed of.  The arguments are [null], the
    identifier, the number of points and the number of bytes as 32-bit
    integers, and a buffer; for a rastered read the six raster values
    follow, the two counts among them as 32-bit integers: five arguments
    or eleven.  When the command's data holds the bytes announced, the
    buffer is a copy of exactly the first [numBytes] of them.  Commands,
    registry, sessions and queue are left as they are. *)
Theorem successful_read_payload (p : nat) (c : ReadCommand) (w : World) :
  commands w !! p = Some c ->
  errMsg c = "" ->
  (0 <= numBytes c <= Z.of_nat (length (data c)))%Z ->
  exists w' bytes,
    PdalBindings.read_after_work p w = (Returned tt, w') /\
    events w' = events w ++
      [Call (target (callback c))
         ([Null; Str (readId c); Int (to_int32 (numPoints c));
           Int (to_int32 (numBytes c)); Buffer bytes] ++
          match rasterMeta c with
          | Some m => [Number (xBegin m); Number (xStep m); Int (to_int32 (xNum m));
                       Number (yBegin m); Number (yStep m); Int (to_int32 (yNum m))]
          | None => []
          end);
       Dispose (handle (callback c))] /\
    bytes `prefix_of` data c /\
    Z.of_nat (length bytes) = numBytes c /\
    commands w' = commands w /\
    m_readCommands w' = m_readCommands w /\
    sessions w' = sessions w /\
    work_queue w' = work_queue w.
Proof.
  intros Hc He Hn. apply nonempty_false in He.
  exists (with_events (fun l => l ++ [Call (target (callback c)) (success_argv c);
                                      Dispose (handle (callback c))]) w),
    (take (Z.to_nat (numBytes c)) (data c)).
  split; [apply (read_after_work_success _ _ _ Hc He)|]. split; [reflexivity|].
  split; [apply prefix_take|]. split; [rewrite length_take; lia|].
  repeat split.
Qed.

Lemma successful_read_payload_witness :
  commands (world_with command_rastered) !! 0%nat = Some command_rastered /\
  errMsg command_rastered = "" /\
  (0 <= numBytes command_rastered <= Z.of_nat (length (data command_rastered)))%Z /\
  exists w' bytes,
    PdalBindings.read_after_work 0 (world_with command_rastered) = (Returned tt, w') /\
    events w' = events (world_with command_rastered) ++
      [Call 7 [Null; Str "6E1BBB2B46DFCC171F1E62F7"; Int 3; Int 6; Buffer bytes;
               Number 0; Number 2; Int 5; Number 0; Number 2; Int 5];
       Dispose 0] /\
    bytes `prefix_of` data command_rastered /\
    Z.of_nat (length bytes) = numBytes command_rastered /\
    commands w' = commands (world_with command_rastered) /\
    m_readCommands w' = m_readCommands (world_with command_rastered) /\
    sessions w' = sessions (world_with command_rastered) /\
    work_queue w' = work_queue (world_with command_rastered).
Proof.
  split; [vm_compute; reflexivity|]. split; [reflexivity|].
  split; [vm_compute; split; discriminate|].
  apply (successful_read_payload 0 command_rastered (world_with command_rastered));
    [vm_compute; reflexivity | reflexivity | vm_compute; split; discriminate].
Defined.

(** X10: the completion of a read whose command carries a message calls
    the callback once with that message alone, takes the entry under the
    command's identifier out of the registry, deletes the command and with
    it gives up the command's share of the session.  Other commands and
    the queue are untouched. *)
Theorem failed_read_completion (p : nat) (c : ReadCommand) (w : World) :
  commands w !! p = Some c ->
  nonempty (errMsg c) = true ->
  exists w',
    PdalBindings.read_after_work p w = (Returned tt, w') /\
    events w' = events w ++ [Call (target (callback c)) [Str (errMsg c)];
                             Dispose (handle (callback c))] /\
    commands w' = delete p (commands w) /\
    m_readCommands w' = delete (readId c) (m_readCommands w) /\
    sessions w' = release_owner (pdalSession c) (sessions w) /\
    work_queue w' = work_queue w.
Proof.
  intros Hc He. eexists.
  split; [apply (read_after_work_error _ _ _ Hc He)|].
  repeat split.
Qed.

Lemma failed_read_completion_witness :
  commands (world_with command_failed) !! 0%nat = Some command_failed /\
  nonempty (errMsg command_failed) = true /\
  exists w',
    PdalBindings.read_after_work 0 (world_with command_failed) = (Returned tt, w') /\
    events w' = events (world_with command_failed)
                ++ [Call (target (callback command_failed)) [Str (errMsg command_failed)];
                    Dispose (handle (callback command_failed))] /\
    commands w' = delete 0%nat (commands (world_with command_failed)) /\
    m_readCommands w' = delete (readId command_failed)
                          (m_readCommands (world_with command_failed)) /\
    sessions w' = release_owner (pdalSession command_failed)
                    (sessions (world_with command_failed)) /\
    work_queue w' = work_queue (world_with command_failed).
Proof.
  split; [vm_compute; reflexivity|]. split; [reflexivity|].
  apply (failed_read_completion 0 command_failed (world_with command_failed));
    [vm_compute; reflexivity | reflexivity].
Defined.

(** ** Identifiers and the random sequence *)

Lemma hex_index_mod r1 r2 : hex_index r1 = hex_index r2 <-> r1 mod 16 = r2 mod 16.
Proof.
  unfold hex_index. change (Z.of_nat (String.length hexValues)) with 16.
  rewrite !(Z.mod_mod_divide _ (2 ^ 64) 16) by (exists (2 ^ 60); reflexivity).
  pose proof (Z.mod_pos_bound r1 16 ltac:(lia)) as B1.
  pose proof (Z.mod_pos_bound r2 16 ltac:(lia)) as B2.
  split; [intros E%Z2Nat.inj; lia | by intros ->].
Qed.

(** X11: generating an identifier advances [rand()] by exactly 24 values
    and changes nothing else; two identifiers, drawn anywhere, are equal
    exactly when the values they were drawn from agree modulo 16, position
    by position.  Of each value of [rand()] only the low four bits
    count. *)
Theorem readId_depends_on_rand_mod_16 (w1 w2 : World) :
  (generateReadId w1).2 = with_rand_pos (rand_pos w1 + 24) w1 /\
  ((generateReadId w1).1 = (generateReadId w2).1 <->
   forall k, (k < 24)%nat ->
     rand_seq w1 (rand_pos w1 + k)%nat mod 16 = rand_seq w2 (rand_pos w2 + k)%nat mod 16).
Proof.
  rewrite !generateReadId_next. split; [reflexivity|]. cbn [fst].
  assert (Heq : forall a b : string, (Returned a : Outcome string) = Returned b <-> a = b)
    by (intros; split; congruence).
  rewrite Heq, next_readId_eq_iff.
  split; intros H k Hk; apply hex_index_mod; by apply H.
Qed.

(** ** Invariants under the event loop *)

Lemma read_tasks_app l k : read_tasks (l ++ k) = read_tasks l ++ read_tasks k.
Proof. apply omap_app. Qed.

Lemma read_tasks_delete (l : list Task) i t :
  l !! i = Some t ->
  read_tasks l ≡ₚ match t with ReadTask p => [p] | _ => [] end ++ read_tasks (delete i l).
Proof.
  intros H. unfold read_tasks. rewrite (delete_Permutation _ _ _ H) at 1.
  by destruct t.
Qed.

(** A step that keeps the command heap, the registry and the allocation
    mark, and only drops read requests from those in flight, keeps the
    three in agreement. *)
Lemma reads_consistent_frame L L' dropped :
  reads_consistent L ->
  commands (world L') = commands (world L) ->
  m_readCommands (world L') = m_readCommands (world L) ->
  next_addr (world L') = next_addr (world L) ->
  read_tasks (pending L) ≡ₚ dropped ++ read_tasks (pending L') ->
  reads_consistent L'.
Proof.
  intros [Hb Hr Hd Hl] Hc Hm Hn Hp. split.
  - intros a Ha. rewrite Hc. apply Hb. by rewrite <- Hn.
  - intros id p Hid. rewrite Hc. apply Hr. by rewrite <- Hm.
  - rewrite Hp in Hd. by apply NoDup_app in Hd as (_ & _ & Hd).
  - intros p Hin. rewrite Hc. apply Hl. rewrite Hp. apply elem_of_app. by right.
Qed.

(** The calls that do not concern reads leave commands and registry
    alone and queue no read request. *)
Lemma invoke_reads_frame op args w :
  commands (invoke op args w).2 = commands w /\
  m_readCommands (invoke op args w).2 = m_readCommands w /\
  next_addr (invoke op args w).2 = next_addr w /\
  exists l, work_queue (invoke op args w).2 = work_queue w ++ l /\ read_tasks l = [].
Proof.
  destruct op; simpl;
    unfold PdalBindings.create, PdalBindings.parse, PdalBindings.serialize,
      PdalBindings.doInitialize;
    (destruct (IsUndefined _ || negb (IsFunction _));
       [by (repeat split; exists []; rewrite app_nil_r)|]);
    try (destruct (nonempty (PdalBindings.doInitialize_errMsg args)));
    unfold errorCallback, Persistent_New, Call_, Dispose_, uv_queue_work,
      PdalBindings.new_CreateData, PdalBindings.new_SerializeData,
      shared_copy, shared_release; run;
    repeat split;
    first [ by (exists []; rewrite app_nil_r) | by (eexists [_]) ].
Qed.

Lemma destroy_reads_frame args w :
  commands (PdalBindings.destroy args w).2 = commands w /\
  m_readCommands (PdalBindings.destroy args w).2 = m_readCommands w /\
  next_addr (PdalBindings.destroy args w).2 = next_addr w /\
  work_queue (PdalBindings.destroy args w).2 = work_queue w.
Proof. done. Qed.

Lemma query_world q args w : (query q args w).2 = w.
Proof. by rewrite query_spec. Qed.

(** The background phase of any request: it never throws, it hands on a
    request of the same kind, and of the state that reads depend on it
    changes at most the result fields of its own command. *)
Lemma uv_work_reads t eff run w :
  m_readCommands (PdalBindings.uv_work t eff run w).2 = m_readCommands w /\
  next_addr (PdalBindings.uv_work t eff run w).2 = next_addr w /\
  work_queue (PdalBindings.uv_work t eff run w).2 = work_queue w /\
  (forall e, (PdalBindings.uv_work t eff run w).1 <> Thrown e) /\
  (forall t', (PdalBindings.uv_work t eff run w).1 = Returned t' ->
              read_tasks [t'] = read_tasks [t]) /\
  match t with
  | ReadTask p =>
      match commands w !! p with
      | Some c =>
          (PdalBindings.uv_work t eff run w).1 = Returned (ReadTask p) /\
          commands (PdalBindings.uv_work t eff run w).2 = <[p := after_run run c]> (commands w)
      | None =>
          (PdalBindings.uv_work t eff run w).1 = Crashed /\
          commands (PdalBindings.uv_work t eff run w).2 = commands w
      end
  | _ => commands (PdalBindings.uv_work t eff run w).2 = commands w
  end.
Proof.
  destruct t as [d|d|p]; simpl.
  - unfold PdalBindings.create_work, session_call.
    destruct (CreateData.pdalSession d) as [a|]; run; [|by repeat split].
    destruct (sessions w !! a) as [[n s]|]; simpl; [|by repeat split].
    destruct (raised eff); simpl; repeat split; try done; by intros t' [= <-].
  - unfold PdalBindings.serialize_work, session_call.
    destruct (SerializeData.pdalSession d) as [a|]; run; [|by repeat split].
    destruct (sessions w !! a) as [[n s]|]; simpl; [|by repeat split].
    destruct (raised eff); simpl; repeat split; try done; by intros t' [= <-].
  - destruct (commands w !! p) as [c|] eqn:Hc.
    + unfold mbind, M_bind. rewrite (read_work_spec _ _ _ _ Hc). simpl.
      repeat split; try done. by intros t' [= <-].
    + unfold PdalBindings.read_work, ReadCommand_run, deref. run. rewrite Hc. simpl.
      by repeat split.
Qed.

(** The completion phase of any request, likewise. *)
Lemma uv_after_work_reads t w :
  next_addr (PdalBindings.uv_after_work t w).2 = next_addr w /\
  work_queue (PdalBindings.uv_after_work t w).2 = work_queue w /\
  match t with
  | ReadTask p =>
      match commands w !! p with
      | Some c =>
          (PdalBindings.uv_after_work t w).1 = Returned tt /\
          if nonempty (errMsg c) then
            commands (PdalBindings.uv_after_work t w).2 = delete p (commands w) /\
            m_readCommands (PdalBindings.uv_after_work t w).2
              = delete (readId c) (m_readCommands w)
          else
            commands (PdalBindings.uv_after_work t w).2 = commands w /\
            m_readCommands (PdalBindings.uv_after_work t w).2 = m_readCommands w
      | None => PdalBindings.uv_after_work t w = (Crashed, w)
      end
  | _ =>
      (PdalBindings.uv_after_work t w).1 = Returned tt /\
      commands (PdalBindings.uv_after_work t w).2 = commands w /\
      m_readCommands (PdalBindings.uv_after_work t w).2 = m_readCommands w
  end.
Proof.
  destruct t as [d|d|p]; simpl; try done.
  destruct (commands w !! p) as [c|] eqn:Hc.
  - destruct (nonempty (errMsg c)) eqn:He.
    + by rewrite (read_after_work_error _ _ _ Hc He).
    + by rewrite (read_after_work_success _ _ _ Hc He).
  - unfold PdalBindings.read_after_work, deref. run. by rewrite Hc.
Qed.

(** A background phase rewrites the result fields of a command in place. *)
Lemma reads_consistent_update L L' p c c' dropped :
  reads_consistent L ->
  commands (world L) !! p = Some c ->
  readId c' = readId c ->
  commands (world L') = <[p := c']> (commands (world L)) ->
  m_readCommands (world L') = m_readCommands (world L) ->
  next_addr (world L') = next_addr (world L) ->
  read_tasks (pending L) ≡ₚ dropped ++ read_tasks (pending L') ->
  reads_consistent L'.
Proof.
  intros [Hb Hr Hd Hl] Hp Hid Hc Hm Hn Hperm. split.
  - intros a Ha. rewrite Hc, Hn in *. rewrite lookup_insert_ne; [by apply Hb|].
    intros ->. rewrite (Hb _ Ha) in Hp. discriminate.
  - intros id q Hq. rewrite Hm in Hq. destruct (Hr _ _ Hq) as (cq & Hcq & Hidq).
    rewrite Hc. destruct (decide (q = p)) as [->|Hne].
    + rewrite lookup_insert_eq. exists c'. split; [done|]. congruence.
    + rewrite lookup_insert_ne by done. eauto.
  - rewrite Hperm in Hd. by apply NoDup_app in Hd as (_ & _ & Hd).
  - intros q Hq. rewrite Hc. destruct (decide (q = p)) as [->|Hne].
    + rewrite lookup_insert_eq. eauto.
    + rewrite lookup_insert_ne by done. apply Hl. rewrite Hperm.
      apply elem_of_app. by right.
Qed.

(** The factory allocates a command at the allocation mark; read then
    registers and queues it, or, when the registry update throws, leaves it
    at that. *)
Lemma reads_consistent_alloc L L' c (registered : bool) :
  reads_consistent L ->
  commands (world L') = <[next_addr (world L) := c]> (commands (world L)) ->
  next_addr (world L') = S (next_addr (world L)) ->
  m_readCommands (world L') =
    (if registered then <[readId c := next_addr (world L)]> (m_readCommands (world L))
     else m_readCommands (world L)) ->
  read_tasks (pending L') ≡ₚ
    read_tasks (pending L) ++ (if registered then [next_addr (world L)] else []) ->
  reads_consistent L'.
Proof.
  intros [Hb Hr Hd Hl] Hc Hn Hm Hperm.
  assert (Hfresh : forall q, is_Some (commands (world L) !! q) -> q <> next_addr (world L)).
  { intros q [cq Hq] ->. rewrite Hb in Hq by lia. discriminate. }
  split.
  - intros a Ha. rewrite Hc, Hn in *. rewrite lookup_insert_ne by lia. apply Hb. lia.
  - intros id q Hq. rewrite Hm in Hq. rewrite Hc.
    assert (Hold : m_readCommands (world L) !! id = Some q ->
                   exists c0, <[next_addr (world L) := c]> (commands (world L)) !! q = Some c0
                              /\ readId c0 = id).
    { intros Hq'. destruct (Hr _ _ Hq') as (cq & Hcq & Hidq).
      rewrite lookup_insert_ne; [eauto|]. intros E. by apply (Hfresh q); eauto. }
    destruct registered; [|by apply Hold].
    destruct (decide (id = readId c)) as [->|Hne].
    + rewrite lookup_insert_eq in Hq. injection Hq as <-.
      rewrite lookup_insert_eq. eauto.
    + rewrite lookup_insert_ne in Hq by done. by apply Hold.
  - rewrite Hperm. destruct registered; [|by rewrite app_nil_r].
    apply NoDup_app. split; [done|]. split; [|apply NoDup_singleton].
    intros q Hq Hin. apply list_elem_of_singleton in Hin. by apply (Hfresh q); [apply Hl|].
  - intros q Hq. rewrite Hperm in Hq. rewrite Hc.
    destruct (decide (q = next_addr (world L))) as [->|Hne].
    + rewrite lookup_insert_eq. eauto.
    + rewrite lookup_insert_ne by done. apply Hl.
      apply elem_of_app in Hq as [Hq|Hq]; [done|].
      destruct registered; [apply list_elem_of_singleton in Hq; done | by apply elem_of_nil in Hq].
Qed.

(** The error path of a read's completion takes the command out of the
    registry and deletes it. *)
Lemma reads_consistent_erase L L' p c :
  reads_consistent L ->
  commands (world L) !! p = Some c ->
  commands (world L') = delete p (commands (world L)) ->
  m_readCommands (world L') = delete (readId c) (m_readCommands (world L)) ->
  next_addr (world L') = next_addr (world L) ->
  read_tasks (pending L) ≡ₚ p :: read_tasks (pending L') ->
  reads_consistent L'.
Proof.
  intros [Hb Hr Hd Hl] Hp Hc Hm Hn Hperm.
  rewrite Hperm in Hd. apply NoDup_cons in Hd as [Hnin Hd].
  split.
  - intros a Ha. rewrite Hc, Hn in *.
    destruct (decide (a = p)) as [->|Hne];
      [apply lookup_delete_eq | rewrite lookup_delete_ne by done; by apply Hb].
  - intros id q Hq. rewrite Hm in Hq. rewrite Hc.
    destruct (decide (id = readId c)) as [->|Hne];
      [by rewrite lookup_delete_eq in Hq|].
    rewrite lookup_delete_ne in Hq by done.
    destruct (Hr _ _ Hq) as (cq & Hcq & Hidq).
    rewrite lookup_delete_ne; [eauto|]. intros ->. congruence.
  - done.
  - intros q Hq. rewrite Hc. rewrite lookup_delete_ne; [|by intros ->].
    apply Hl. rewrite Hperm. by apply elem_of_cons; right.
Qed.

(** Every step keeps registry, command heap and read requests in
    agreement. *)
Lemma step_reads_consistent validate act L :
  reads_consistent L -> reads_consistent (step validate act L).2.
Proof.
  intros HL. destruct act as [op args|args|q args|args|i eff run|j];
    cbn [step in_world fst snd].
  - destruct (invoke_reads_frame op args (world L)) as (Hc & Hm & Hn & l & Hq & Hl).
    apply (reads_consistent_frame L _ []); simpl; try done.
    unfold pending; simpl. by rewrite Hq, !read_tasks_app, Hl, app_nil_r.
  - by apply (reads_consistent_frame L _ []).
  - apply (reads_consistent_frame L _ []); simpl; by rewrite ?query_world.
  - destruct (validate (current_session (world L)) args) as [msg fn|raster fn] eqn:Hv.
    + unfold in_world. rewrite (read_rejected _ _ _ _ _ Hv). simpl.
      by apply (reads_consistent_frame L _ []); destruct fn.
    + unfold in_world. rewrite (read_accepted _ _ _ _ _ Hv).
      destruct (m_readCommands (world L) !! next_readId (world L)) as [p0|];
        [|destruct (registry_alloc_fails (world L))]; simpl.
      * apply (reads_consistent_alloc L _ (fresh_command (world L) raster fn) true);
          simpl; try done.
        unfold pending; simpl. rewrite !read_tasks_app, <- !app_assoc. f_equiv.
        apply (Permutation_app_comm [_]).
      * apply (reads_consistent_alloc L _ (fresh_command (world L) raster fn) false);
          simpl; try done. by rewrite app_nil_r.
      * apply (reads_consistent_alloc L _ (fresh_command (world L) raster fn) true);
          simpl; try done.
        unfold pending; simpl. rewrite !read_tasks_app, <- !app_assoc. f_equiv.
        apply (Permutation_app_comm [_]).
  - destruct (work_queue (world L) !! i) as [t|] eqn:Hi; [|done].
    pose proof (read_tasks_delete _ _ _ Hi) as Hdel.
    set (w := with_work_queue (delete i) (world L)).
    assert (Hpend : read_tasks (pending L) ≡ₚ
                    read_tasks [t] ++ read_tasks (delete i (work_queue (world L)) ++ finished L)).
    { unfold pending. rewrite !read_tasks_app, Hdel, <- app_assoc. by destruct t. }
    destruct (uv_work_reads t eff run w) as (Hm & Hn & Hq & Hnt & Hk & Hcmd).
    destruct (PdalBindings.uv_work t eff run w) as [[t'|e|] w'] eqn:E; cbn [fst snd] in *.
    + assert (Hperm : read_tasks (pending L) ≡ₚ
                      [] ++ read_tasks (pending {| world := w'; finished := finished L ++ [t'] |})).
      { rewrite Hpend. unfold pending; simpl.
        rewrite Hq, !read_tasks_app, (Hk t' eq_refl). simpl.
        rewrite (Permutation_app_comm (read_tasks [t])). by rewrite <- app_assoc. }
      destruct t as [d|d|p].
      * by apply (reads_consistent_frame L _ []).
      * by apply (reads_consistent_frame L _ []).
      * destruct (commands (world L) !! p) as [c|] eqn:Hc; simpl in Hcmd;
          change (commands w) with (commands (world L)) in Hcmd; rewrite Hc in Hcmd;
          destruct Hcmd as [Hret Hcmd]; [|discriminate].
        by apply (reads_consistent_update L _ p c (after_run run c) []).
    + by destruct (Hnt e).
    + assert (Hc : commands w' = commands (world L)).
      { destruct t as [d|d|p]; try done.
        change (commands w) with (commands (world L)) in Hcmd.
        destruct (commands (world L) !! p); by destruct Hcmd. }
      apply (reads_consistent_frame L _ (read_tasks [t])); simpl; try done.
      rewrite Hpend. unfold pending; simpl. by rewrite Hq.
  - destruct (finished L !! j) as [t|] eqn:Hj; [|done]. simpl.
    pose proof (read_tasks_delete _ _ _ Hj) as Hdel.
    destruct (uv_after_work_reads t (world L)) as (Hn & Hq & Ht).
    assert (Hpend : read_tasks (pending L) ≡ₚ
                    match t with ReadTask p => [p] | _ => [] end ++
                    read_tasks (work_queue (world L) ++ delete j (finished L))).
    { unfold pending. rewrite !read_tasks_app, Hdel.
      rewrite (app_assoc (read_tasks (work_queue (world L)))).
      rewrite (Permutation_app_comm (read_tasks (work_queue (world L)))).
      by rewrite <- app_assoc. }
    destruct t as [d|d|p].
    + destruct Ht as (_ & Hc & Hm).
      apply (reads_consistent_frame L _ []); simpl; try done;
        unfold pending in *; simpl; by rewrite Hq.
    + destruct Ht as (_ & Hc & Hm).
      apply (reads_consistent_frame L _ []); simpl; try done;
        unfold pending in *; simpl; by rewrite Hq.
    + destruct (commands (world L) !! p) as [c|] eqn:Hc.
      * destruct Ht as [_ Ht]. destruct (nonempty (errMsg c)); destruct Ht as [Hc' Hm];
          simpl in Hq, Hn, Hc', Hm.
        -- apply (reads_consistent_erase L _ p c); simpl; try done;
             unfold pending in *; simpl; by rewrite Hq.
        -- apply (reads_consistent_frame L _ [p]); simpl; try done;
             unfold pending in *; simpl; by rewrite Hq.
      * rewrite Ht. simpl.
        by apply (reads_consistent_frame L _ [p]).
Qed.

Lemma boot_reads_consistent w :
  commands w = ∅ -> m_readCommands w = ∅ -> work_queue w = [] ->
  reads_consistent {| world := w; finished := [] |}.
Proof.
  intros Hc Hm Hq. split; simpl.
  - intros a _. by rewrite Hc.
  - intros id p. by rewrite Hm.
  - unfold pending; simpl. rewrite Hq. constructor.
  - unfold pending; simpl. rewrite Hq. intros p Hp. by apply elem_of_nil in Hp.
Qed.

Lemma reachable_reads_consistent validate L :
  reachable validate L -> reads_consistent L.
Proof.
  induction 1 as [w a s Hs Hc Hp Hm Hq He|act L HL IH Hlive].
  - by apply boot_reads_consistent.
  - by apply step_reads_consistent.
Qed.

(** X12: in every state the binding reaches, each entry of the registry
    leads to a command that is still allocated and carries the identifier
    it is registered under: the registry never holds a dangling pointer,
    whatever the order in which requests are worked on and completed. *)
Theorem registry_never_dangles
    (validate : option PdalSession.t -> list Value -> Verdict)
    (L : Loop) (id : string) (p : nat) :
  reachable validate L ->
  m_readCommands (world L) !! id = Some p ->
  exists c, commands (world L) !! p = Some c /\ readId c = id.
Proof.
  intros HL. apply (registry_live L (reachable_reads_consistent validate L HL)).
Qed.

Lemma loop_reading_reachable : reachable accept_any loop_reading.
Proof.
  apply (reachable_step accept_any (ARead []) loop0).
  - by apply (reachable_boot accept_any world0 0 session0).
  - vm_compute. discriminate.
Qed.

Lemma registry_never_dangles_witness :
  reachable accept_any loop_reading /\
  m_readCommands (world loop_reading) !! "6E1BBB2B46DFCC171F1E62F7" = Some 0%nat /\
  exists c, commands (world loop_reading) !! 0%nat = Some c /\
            readId c = "6E1BBB2B46DFCC171F1E62F7".
Proof.
  split; [apply loop_reading_reachable|]. split; [vm_compute; reflexivity|].
  apply (registry_never_dangles accept_any loop_reading "6E1BBB2B46DFCC171F1E62F7" 0).
  - apply loop_reading_reachable.
  - vm_compute; reflexivity.
Defined.

(** X13: in every state the binding reaches, neither phase of a read
    request can crash or throw: the command the request points to is still
    allocated when a pool thread picks the request up, and still when the
    loop completes it, whatever happened in between. *)
Theorem read_request_never_crashes
    (validate : option PdalSession.t -> list Value -> Verdict)
    (L : Loop) (act : Action) (p : nat) :
  reachable validate L ->
  task_of act L = Some (ReadTask p) ->
  (step validate act L).1 = Returned tt.
Proof.
  intros HL Ht. apply reachable_reads_consistent in HL.
  assert (Hlive : is_Some (commands (world L) !! p)).
  { apply (tasks_live L HL). unfold pending. rewrite read_tasks_app. apply elem_of_app.
    destruct act; try discriminate; simpl in Ht; [left|right];
      apply list_elem_of_omap; exists (ReadTask p); (split; [|done]);
      by apply list_elem_of_lookup; eexists. }
  destruct Hlive as [c Hc].
  destruct act as [| | | |i eff run|j]; try discriminate; simpl in *; rewrite Ht.
  - destruct (uv_work_reads (ReadTask p) eff run
                (with_work_queue (delete i) (world L))) as (_ & _ & _ & _ & _ & H).
    change (commands (with_work_queue (delete i) (world L))) with (commands (world L)) in H.
    rewrite Hc in H. destruct H as [H _].
    destruct (PdalBindings.uv_work _ _ _ _) as [[t'|e|] w']; by try discriminate H.
  - destruct (uv_after_work_reads (ReadTask p) (world L)) as (_ & _ & H).
    rewrite Hc in H. by destruct H as [H _].
Qed.

Lemma read_request_never_crashes_witness :
  reachable accept_any loop_reading /\
  task_of (AWork 0 engine_ok run_throws) loop_reading = Some (ReadTask 0) /\
  (step accept_any (AWork 0 engine_ok run_throws) loop_reading).1 = Returned tt.
Proof.
  split; [apply loop_reading_reachable|]. split; [vm_compute; reflexivity|].
  apply (read_request_never_crashes accept_any loop_reading
           (AWork 0 engine_ok run_throws) 0).
  - apply loop_reading_reachable.
  - vm_compute; reflexivity.
Defined.

(** ** Use counts of the session *)

Lemma owns_None a : owns a None = 0%nat.
Proof. reflexivity. Qed.

Lemma owns_Some a a' : owns a (Some a') = if decide (a' = a) then 1%nat else 0%nat.
Proof. unfold owns. repeat case_decide; congruence. Qed.

Lemma count_at_add_owner h p a :
  (forall a', p = Some a' -> is_Some (h !! a')) ->
  count_at (add_owner p h) a = (count_at h a + owns a p)%nat.
Proof.
  intros Hlive. destruct p as [a'|]; simpl; [|rewrite owns_None; lia].
  destruct (Hlive a' eq_refl) as [[n s] Hl]. rewrite owns_Some. unfold count_at.
  case_decide as E.
  - subst a'. rewrite lookup_alter_eq, Hl. simpl. lia.
  - rewrite lookup_alter_ne by done. lia.
Qed.

Lemma count_at_release_owner h p a :
  (forall a' s, h !! a' <> Some (O, s)) ->
  (forall a', p = Some a' -> is_Some (h !! a')) ->
  (count_at (release_owner p h) a + owns a p)%nat = count_at h a.
Proof.
  intros Hpos Hlive. destruct p as [a'|]; simpl; [|rewrite owns_None; lia].
  destruct (Hlive a' eq_refl) as [[n s] Hl]. rewrite owns_Some, Hl. unfold count_at.
  destruct n as [|[|n]]; [by destruct (Hpos a' s)| |]; case_decide as E; subst;
    rewrite ?lookup_delete_eq, ?lookup_delete_ne, ?lookup_insert_eq, ?lookup_insert_ne,
      ?Hl by done; simpl; lia.
Qed.

Lemma count_at_insert (h : gmap nat (nat * PdalSession.t)) a' n s s' a :
  h !! a' = Some (n, s) ->
  count_at (<[a' := (n, s')]> h) a = count_at h a.
Proof.
  intros Hl. unfold count_at. destruct (decide (a' = a)) as [->|Hne].
  - by rewrite lookup_insert_eq, Hl.
  - by rewrite lookup_insert_ne.
Qed.

Lemma positive_add_owner (h : gmap nat (nat * PdalSession.t)) p :
  (forall a s, h !! a <> Some (O, s)) ->
  forall a s, add_owner p h !! a <> Some (O, s).
Proof.
  intros Hpos a s. destruct p as [a'|]; simpl; [|apply Hpos].
  destruct (decide (a' = a)) as [->|Hne].
  - rewrite lookup_alter_eq. destruct (h !! a) as [[n s0]|]; simpl; congruence.
  - rewrite lookup_alter_ne by done. apply Hpos.
Qed.

Lemma positive_release_owner (h : gmap nat (nat * PdalSession.t)) p :
  (forall a s, h !! a <> Some (O, s)) ->
  forall a s, release_owner p h !! a <> Some (O, s).
Proof.
  intros Hpos a s. destruct p as [a'|]; simpl; [|apply Hpos].
  destruct (h !! a') as [[[|[|n]] s0]|] eqn:Hl; try apply Hpos;
    (destruct (decide (a' = a)) as [->|Hne];
     [rewrite ?lookup_delete_eq, ?lookup_insert_eq; congruence
     |rewrite ?lookup_delete_ne, ?lookup_insert_ne by done; apply Hpos]).
Qed.

Lemma positive_insert (h : gmap nat (nat * PdalSession.t)) a' n s s' :
  (forall a s, h !! a <> Some (O, s)) ->
  h !! a' = Some (n, s) ->
  forall a s0, <[a' := (n, s')]> h !! a <> Some (O, s0).
Proof.
  intros Hpos Hl a s0. destruct (decide (a' = a)) as [->|Hne].
  - rewrite lookup_insert_eq. intros [= -> _]. by destruct (Hpos a s).
  - rewrite lookup_insert_ne by done. apply Hpos.
Qed.

(** Sums over the requests in flight and over the command heap. *)
Lemma sum_delete {A} (f : A -> nat) (l : list A) i x :
  l !! i = Some x -> sum_list_with f l = (f x + sum_list_with f (delete i l))%nat.
Proof. intros H. by rewrite (delete_Permutation _ _ _ H) at 1. Qed.

Lemma sum_commands_insert_fresh (f : nat * ReadCommand -> nat)
    (m : gmap nat ReadCommand) p c :
  m !! p = None ->
  sum_list_with f (map_to_list (<[p := c]> m)) = (f (p, c) + sum_list_with f (map_to_list m))%nat.
Proof. intros H. by rewrite (map_to_list_insert _ _ _ H). Qed.

Lemma sum_commands_delete (f : nat * ReadCommand -> nat)
    (m : gmap nat ReadCommand) p c :
  m !! p = Some c ->
  sum_list_with f (map_to_list m) = (f (p, c) + sum_list_with f (map_to_list (delete p m)))%nat.
Proof. intros H. by rewrite <- (map_to_list_delete _ _ _ H). Qed.

Lemma sum_commands_update (f : nat * ReadCommand -> nat)
    (m : gmap nat ReadCommand) p c c' :
  m !! p = Some c ->
  f (p, c') = f (p, c) ->
  sum_list_with f (map_to_list (<[p := c']> m)) = sum_list_with f (map_to_list m).
Proof.
  intros H Hf. rewrite <- insert_delete_eq.
  rewrite sum_commands_insert_fresh by apply lookup_delete_eq.
  by rewrite (sum_commands_delete f m p c H), Hf.
Qed.

Lemma count_at_live (h : gmap nat (nat * PdalSession.t)) a :
  (0 < count_at h a)%nat -> is_Some (h !! a).
Proof. unfold count_at. destruct (h !! a); [eauto | lia]. Qed.

Lemma owns_le a p : (owns a p <= 1)%nat.
Proof. unfold owns. case_decide; lia. Qed.

Lemma owns_self a : owns a (Some a) = 1%nat.
Proof. unfold owns. by case_decide. Qed.

(** The binding's own pointer always leads to a control block. *)
Lemma counted_binding_live L a :
  sessions_counted L -> m_pdalSession (world L) = Some a ->
  is_Some (sessions (world L) !! a).
Proof.
  intros [Hc _] Hp. apply count_at_live. rewrite Hc. unfold owners.
  rewrite Hp, owns_self. lia.
Qed.

(** A call that may queue a request with a copy of the binding's pointer,
    and may reset the binding's pointer afterwards. *)
Lemma counted_call L L' (added kept : bool) :
  sessions_counted L ->
  commands (world L') = commands (world L) ->
  (forall a, sum_list_with (fun t => owns a (task_session t)) (pending L') =
             (sum_list_with (fun t => owns a (task_session t)) (pending L)
              + if added then owns a (m_pdalSession (world L)) else 0)%nat) ->
  sessions (world L') =
    (if kept then fun h => h else release_owner (m_pdalSession (world L)))
      ((if added then add_owner (m_pdalSession (world L)) else fun h => h)
         (sessions (world L))) ->
  m_pdalSession (world L') = (if kept then m_pdalSession (world L) else None) ->
  sessions_counted L'.
Proof.
  intros HL Hcmd Hsum Hses Hptr.
  pose proof HL as [Hc Hpos].
  set (p := m_pdalSession (world L)) in *.
  assert (Hlive : forall a', p = Some a' -> is_Some (sessions (world L) !! a'))
    by (intros a' E; by apply counted_binding_live).
  set (h1 := (if added then add_owner p else fun h => h) (sessions (world L))) in *.
  assert (Hc1 : forall a, count_at h1 a =
                          (count_at (sessions (world L)) a + if added then owns a p else 0)%nat).
  { intros a. subst h1. destruct added; [by apply count_at_add_owner | lia]. }
  assert (Hpos1 : forall a s, h1 !! a <> Some (O, s)).
  { subst h1. destruct added; [by apply positive_add_owner | done]. }
  assert (Hlive1 : forall a', p = Some a' -> is_Some (h1 !! a')).
  { intros a' E. apply count_at_live. rewrite Hc1.
    specialize (Hlive a' E). destruct Hlive as [[n s] Hl].
    unfold count_at at 1. rewrite Hl. simpl. destruct n; [by destruct (Hpos a' s)|lia]. }
  split.
  - intros a. rewrite Hses. unfold owners. rewrite Hcmd, Hsum, Hptr.
    specialize (Hc a). unfold owners in Hc. fold p in Hc. specialize (Hc1 a).
    destruct kept.
    + lia.
    + pose proof (count_at_release_owner h1 p a Hpos1 Hlive1). rewrite owns_None. lia.
  - rewrite Hses. destruct kept; [done|]. by apply positive_release_owner.
Qed.

Lemma counted_same L L' :
  sessions_counted L ->
  (sessions (world L') = sessions (world L) \/
   exists a n s s', sessions (world L) !! a = Some (n, s) /\
                    sessions (world L') = <[a := (n, s')]> (sessions (world L))) ->
  (forall a, owners a L' = owners a L) ->
  sessions_counted L'.
Proof.
  intros [Hc Hpos] Hses Hown. destruct Hses as [Hses|(a' & n & s & s' & Hl & Hses)];
    split; intros a; rewrite Hses, ?Hown; try done.
  - by rewrite (count_at_insert _ _ _ _ _ _ Hl).
  - by apply (positive_insert _ _ _ _ _ Hpos Hl).
Qed.

Lemma counted_release L L' q :
  sessions_counted L ->
  sessions (world L') = release_owner q (sessions (world L)) ->
  (forall a, (owners a L' + owns a q)%nat = owners a L) ->
  sessions_counted L'.
Proof.
  intros [Hc Hpos] Hses Hown.
  assert (Hlive : forall a', q = Some a' -> is_Some (sessions (world L) !! a')).
  { intros a' ->. apply count_at_live. rewrite Hc, <- Hown, owns_self. lia. }
  split.
  - intros a. rewrite Hses. pose proof (count_at_release_owner _ q a Hpos Hlive).
    specialize (Hc a). specialize (Hown a). lia.
  - rewrite Hses. by apply positive_release_owner.
Qed.

Lemma counted_acquire L L' :
  sessions_counted L ->
  sessions (world L') = add_owner (m_pdalSession (world L)) (sessions (world L)) ->
  (forall a, owners a L' = (owners a L + owns a (m_pdalSession (world L)))%nat) ->
  sessions_counted L'.
Proof.
  intros HL Hses Hown. pose proof HL as [Hc Hpos]. split.
  - intros a. rewrite Hses, Hown, <- Hc. apply count_at_add_owner.
    intros a' E. by apply counted_binding_live.
  - rewrite Hses. by apply positive_add_owner.
Qed.

(** What create, parse and serialize do to the shares of the session:
    they may queue one request holding a copy of the binding's pointer, and
    parse resets the binding's pointer whenever it returns. *)
Lemma invoke_sessions op args w :
  exists (added kept : bool) (l : list Task),
    work_queue (invoke op args w).2 = work_queue w ++ l /\
    (forall a, sum_list_with (fun t => owns a (task_session t)) l =
               if added then owns a (m_pdalSession w) else 0%nat) /\
    commands (invoke op args w).2 = commands w /\
    sessions (invoke op args w).2 =
      (if kept then fun h => h else release_owner (m_pdalSession w))
        ((if added then add_owner (m_pdalSession w) else fun h => h) (sessions w)) /\
    m_pdalSession (invoke op args w).2 = (if kept then m_pdalSession w else None).
Proof.
  destruct op; simpl;
    unfold PdalBindings.create, PdalBindings.parse, PdalBindings.serialize,
      PdalBindings.doInitialize;
    (destruct (IsUndefined _ || negb (IsFunction _));
       [by (exists false, true, []; rewrite app_nil_r)|]);
    try (destruct (nonempty (PdalBindings.doInitialize_errMsg args)));
    unfold errorCallback, Persistent_New, Call_, Dispose_, uv_queue_work,
      PdalBindings.new_CreateData, PdalBindings.new_SerializeData,
      shared_copy, shared_release; run;
    first
      [ by (exists false, true, []; rewrite app_nil_r)
      | by (exists false, false, []; rewrite app_nil_r)
      | by (eexists true, true, [_]; repeat split; intros; simpl; lia)
      | by (eexists true, false, [_]; repeat split; intros; simpl; lia) ].
Qed.

(** The background phase and the shares: a create or serialize request
    runs only if its pointer leads to a session, whose state it then
    replaces; a read request leaves the session table alone. *)
Lemma uv_work_sessions t eff run w :
  m_pdalSession (PdalBindings.uv_work t eff run w).2 = m_pdalSession w /\
  match t with
  | ReadTask p => sessions (PdalBindings.uv_work t eff run w).2 = sessions w
  | _ =>
      match task_session t with
      | Some a =>
          match sessions w !! a with
          | Some b =>
              (exists t', (PdalBindings.uv_work t eff run w).1 = Returned t' /\
                          task_session t' = Some a) /\
              sessions (PdalBindings.uv_work t eff run w).2
                = <[a := (b.1, session_after eff)]> (sessions w)
          | None => PdalBindings.uv_work t eff run w = (Crashed, w)
          end
      | None => PdalBindings.uv_work t eff run w = (Crashed, w)
      end
  end.
Proof.
  destruct t as [d|d|p]; simpl.
  - unfold PdalBindings.create_work, session_call.
    destruct (CreateData.pdalSession d) as [a|] eqn:Hp; run; [|done].
    destruct (sessions w !! a) as [[n s]|]; simpl; [|done].
    destruct (raised eff); simpl; (split; [done|]); (split; [|done]); eauto.
  - unfold PdalBindings.serialize_work, session_call.
    destruct (SerializeData.pdalSession d) as [a|] eqn:Hp; run; [|done].
    destruct (sessions w !! a) as [[n s]|]; simpl; [|done].
    destruct (raised eff); simpl; (split; [done|]); (split; [|done]); eauto.
  - destruct (commands w !! p) as [c|] eqn:Hc.
    + unfold mbind, M_bind. by rewrite (read_work_spec _ _ _ _ Hc).
    + unfold PdalBindings.read_work, ReadCommand_run, deref. run. by rewrite Hc.
Qed.

Lemma uv_after_work_sessions t w :
  m_pdalSession (PdalBindings.uv_after_work t w).2 = m_pdalSession w /\
  match t with
  | ReadTask p =>
      match commands w !! p with
      | Some c =>
          sessions (PdalBindings.uv_after_work t w).2 =
            if nonempty (errMsg c) then release_owner (pdalSession c) (sessions w)
            else sessions w
      | None => True
      end
  | _ => sessions (PdalBindings.uv_after_work t w).2
         = release_owner (task_session t) (sessions w)
  end.
Proof.
  destruct t as [d|d|p]; simpl; try done.
  destruct (commands w !! p) as [c|] eqn:Hc.
  - destruct (nonempty (errMsg c)) eqn:He.
    + by rewrite (read_after_work_error _ _ _ Hc He).
    + by rewrite (read_after_work_success _ _ _ Hc He).
  - unfold PdalBindings.read_after_work, deref. run. by rewrite Hc.
Qed.

Lemma sum_tasks_pending (f : Task -> nat) L :
  sum_list_with f (pending L) =
    (sum_list_with f (work_queue (world L)) + sum_list_with f (finished L))%nat.
Proof. apply sum_list_with_app. Qed.

(** A request in flight holds its pointer's share: the pointer leads
    somewhere. *)
Lemma counted_task_live L t a :
  sessions_counted L -> t ∈ pending L -> task_session t = Some a ->
  is_Some (sessions (world L) !! a).
Proof.
  intros [Hc _] Hin Ht. apply count_at_live. rewrite Hc. unfold owners.
  pose proof (sum_list_with_in t (fun t => owns a (task_session t)) _ Hin) as Hle.
  simpl in Hle. rewrite Ht, owns_self in Hle. lia.
Qed.

(** Every step keeps the use counts equal to the number of owners. *)
Lemma step_sessions_counted validate act L :
  reads_consistent L -> sessions_counted L ->
  sessions_counted (step validate act L).2.
Proof.
  intros HR HS. destruct act as [op args|args|q args|args|i eff run|j];
    cbn [step in_world fst snd].
  - destruct (invoke_sessions op args (world L))
      as (added & kept & l & Hq & Hsum & Hc & Hses & Hptr).
    apply (counted_call L _ added kept); simpl; try done.
    intros a. rewrite !sum_tasks_pending. simpl.
    rewrite Hq, sum_list_with_app, Hsum. lia.
  - apply (counted_call L _ false false); simpl; try done; intros a; lia.
  - apply (counted_same L); [done|left; simpl; by rewrite query_world|].
    intros a. unfold owners, pending; simpl. by rewrite query_world.
  - destruct (validate (current_session (world L)) args) as [msg fn|raster fn] eqn:Hv.
    + unfold in_world. rewrite (read_rejected _ _ _ _ _ Hv). simpl.
      apply (counted_same L); [done|left; by destruct fn|].
      intros a. unfold owners, pending; simpl. by destruct fn.
    + unfold in_world. rewrite (read_accepted _ _ _ _ _ Hv).
      assert (Hfresh : commands (world L) !! next_addr (world L) = None)
        by (apply (commands_below L HR); lia).
      destruct (m_readCommands (world L) !! next_readId (world L)) as [p0|];
        [|destruct (registry_alloc_fails (world L))]; simpl;
        (apply (counted_acquire L); [done|done|]);
        intros a; unfold owners, pending; simpl;
        rewrite (sum_commands_insert_fresh _ _ _ _ Hfresh); simpl;
        rewrite ?sum_list_with_app; simpl; lia.
  - destruct (work_queue (world L) !! i) as [t|] eqn:Hi; [|done].
    set (w := with_work_queue (delete i) (world L)).
    destruct (uv_work_reads t eff run w) as (Hm & Hn & Hq & Hnt & Hk & Hcmd).
    destruct (uv_work_sessions t eff run w) as (Hptr & Hses).
    assert (Hin : t ∈ pending L).
    { apply elem_of_app. left. apply list_elem_of_lookup. eauto. }
    assert (Hsum : forall a,
               sum_list_with (fun t => owns a (task_session t)) (work_queue (world L)) =
               (owns a (task_session t)
                + sum_list_with (fun t => owns a (task_session t))
                    (delete i (work_queue (world L))))%nat)
      by (intros a; by apply (sum_delete (fun t => owns a (task_session t)))).
    change (commands w) with (commands (world L)) in Hcmd.
    change (sessions w) with (sessions (world L)) in Hses.
    change (m_pdalSession w) with (m_pdalSession (world L)) in Hptr.
    change (work_queue w) with (delete i (work_queue (world L))) in Hq.
    destruct (PdalBindings.uv_work t eff run w) as [[t'|e|] w'] eqn:E; cbn [fst snd] in *.
    + destruct (task_session t) as [a'|] eqn:Hts.
      * destruct t as [d|d|p]; [| |discriminate];
          (destruct (sessions (world L) !! a') as [[n s]|] eqn:Hl; [|discriminate]);
          destruct Hses as [(t'' & [= <-] & Hts') Hses];
          (apply (counted_same L);
           [done|right; exists a', n, s, (session_after eff); by split|]);
          intros a; unfold owners; rewrite !sum_tasks_pending; simpl;
          rewrite Hptr, Hq, Hcmd, sum_list_with_app, (Hsum a); simpl;
          rewrite Hts'; lia.
      * destruct t as [d|d|p]; try discriminate. simpl in Hts.
        destruct (commands (world L) !! p) as [c|] eqn:Hc;
          destruct Hcmd as [[= ->] Hcmd].
        apply (counted_same L); [done|by left|].
        intros a; unfold owners; rewrite !sum_tasks_pending; simpl.
        rewrite Hptr, Hq, Hcmd, sum_list_with_app, (Hsum a); simpl.
        rewrite (sum_commands_update _ _ _ _ _ Hc); [lia|done].
    + by destruct (Hnt e).
    + assert (Hw : w' = w /\ task_session t = None \/
                   sessions w' = sessions (world L) /\ commands w' = commands (world L)
                   /\ task_session t = None).
      { destruct t as [d|d|p]; simpl in *.
        - destruct (CreateData.pdalSession d) as [a'|] eqn:Hp.
          + destruct (counted_task_live L _ a' HS Hin Hp) as [b Hb].
            rewrite Hb in Hses. by destruct Hses as [(t'' & [=] & _) _].
          + left. by injection Hses.
        - destruct (SerializeData.pdalSession d) as [a'|] eqn:Hp.
          + destruct (counted_task_live L _ a' HS Hin Hp) as [b Hb].
            rewrite Hb in Hses. by destruct Hses as [(t'' & [=] & _) _].
          + left. by injection Hses.
        - right. destruct (commands (world L) !! p); by destruct Hcmd. }
      apply (counted_same L); [done| |].
      { left. simpl. destruct Hw as [[-> _]|[Hs _]]; [done|exact Hs]. }
      intros a; unfold owners; rewrite !sum_tasks_pending; simpl.
      rewrite Hptr, Hq, (Hsum a).
      destruct Hw as [[-> ->]|(_ & -> & ->)]; simpl; lia.
  - destruct (finished L !! j) as [t|] eqn:Hj; [|done]. simpl.
    destruct (uv_after_work_reads t (world L)) as (Hn & Hq & Ht).
    destruct (uv_after_work_sessions t (world L)) as (Hptr & Hses).
    assert (Hsum : forall a,
               sum_list_with (fun t => owns a (task_session t)) (finished L) =
               (owns a (task_session t)
                + sum_list_with (fun t => owns a (task_session t))
                    (delete j (finished L)))%nat)
      by (intros a; by apply (sum_delete (fun t => owns a (task_session t)))).
    destruct t as [d|d|p].
    + destruct Ht as (_ & Hc & Hm).
      apply (counted_release L _ (task_session (CreateTask d))); [done|done|].
      intros a; unfold owners; rewrite !sum_tasks_pending; simpl.
      rewrite (Hsum a). simpl. lia.
    + destruct Ht as (_ & Hc & Hm).
      apply (counted_release L _ (task_session (SerializeTask d))); [done|done|].
      intros a; unfold owners; rewrite !sum_tasks_pending; simpl.
      rewrite (Hsum a). simpl. lia.
    + destruct (commands (world L) !! p) as [c|] eqn:Hc.
      * destruct Ht as [_ Ht]. destruct (nonempty (errMsg c)); destruct Ht as [Hc' Hm].
        -- apply (counted_release L _ (pdalSession c)); [done|done|].
           intros a; unfold owners; rewrite !sum_tasks_pending; simpl.
           simpl in Hptr, Hq, Hc'. rewrite Hptr, Hq, Hc', (Hsum a).
           rewrite (sum_commands_delete _ _ _ _ Hc). simpl. lia.
        -- apply (counted_same L); [done|by left|].
           intros a; unfold owners; rewrite !sum_tasks_pending; simpl.
           simpl in Hptr, Hq, Hc'. rewrite Hptr, Hq, Hc', (Hsum a). simpl. lia.
      * rewrite Ht. simpl. apply (counted_same L); [done|by left|].
        intros a; unfold owners; rewrite !sum_tasks_pending; simpl.
        rewrite (Hsum a). simpl. lia.
Qed.

Lemma owners_gmap_singleton a (s : PdalSession.t) a' :
  count_at ({[ a := (1%nat, s) ]} : gmap nat (nat * PdalSession.t)) a' = owns a' (Some a).
Proof.
  unfold count_at. rewrite owns_Some. case_decide as E.
  - subst. by rewrite lookup_singleton_eq.
  - by rewrite lookup_singleton_ne.
Qed.

Lemma boot_sessions_counted w a s :
  sessions w = {[ a := (1%nat, s) ]} -> commands w = ∅ ->
  m_pdalSession w = Some a -> work_queue w = [] ->
  sessions_counted {| world := w; finished := [] |}.
Proof.
  intros Hs Hc Hp Hq. split; simpl.
  - intros a'. unfold owners, pending; simpl.
    rewrite Hs, Hc, Hp, Hq, map_to_list_empty, owners_gmap_singleton. simpl. lia.
  - intros a' s'. rewrite Hs. destruct (decide (a = a')) as [->|Hne].
    + by rewrite lookup_singleton_eq.
    + by rewrite lookup_singleton_ne.
Qed.

Lemma reachable_sessions_counted validate L :
  reachable validate L -> sessions_counted L.
Proof.
  induction 1 as [w a s Hs Hc Hp Hm Hq He|act L HL IH Hlive].
  - by apply (boot_sessions_counted w a s).
  - apply step_sessions_counted; [by apply (reachable_reads_consistent validate)|done].
Qed.

(** X14: in every state the binding reaches, the use count of a session
    is exactly the number of shared pointers to it that exist: the
    binding's, one per request in flight, one per allocated command.  The
    session is allocated exactly while that number is positive: it is
    never deleted under a pointer, and never kept without one. *)
Theorem use_count_is_number_of_owners
    (validate : option PdalSession.t -> list Value -> Verdict) (L : Loop) (a : nat) :
  reachable validate L ->
  count_at (sessions (world L)) a = owners a L /\
  (is_Some (sessions (world L) !! a) <-> (0 < owners a L)%nat).
Proof.
  intros HL. destruct (reachable_sessions_counted validate L HL) as [Hc Hpos].
  split; [apply Hc|]. rewrite <- Hc. split; [|apply count_at_live].
  intros [[n s] Hl]. unfold count_at. rewrite Hl. simpl.
  destruct n; [by destruct (Hpos a s)|lia].
Qed.

Lemma use_count_is_number_of_owners_witness :
  reachable accept_any loop_reading /\
  count_at (sessions (world loop_reading)) 0 = owners 0 loop_reading /\
  (is_Some (sessions (world loop_reading) !! 0%nat) <-> (0 < owners 0 loop_reading)%nat).
Proof.
  split; [apply loop_reading_reachable|].
  apply (use_count_is_number_of_owners accept_any loop_reading 0).
  apply loop_reading_reachable.
Defined.

(** X15: in every state the binding reaches, a binding that still holds
    its session pointer finds the session behind it: a query then ends as
    the session's own query does and leaves the world alone.  The pointer
    of the binding never dangles, whatever requests completed before. *)
Theorem query_reaches_live_session
    (validate : option PdalSession.t -> list Value -> Verdict)
    (L : Loop) (q : Query) (args : list Value) (a : nat) :
  reachable validate L ->
  m_pdalSession (world L) = Some a ->
  exists n s,
    sessions (world L) !! a = Some (n, s) /\
    query q args (world L) = (session_answer q s, world L).
Proof.
  intros HL Hp. apply reachable_sessions_counted in HL.
  destruct (counted_binding_live L a HL Hp) as [[n s] Hl].
  exists n, s. split; [done|]. rewrite query_spec. unfold current_session.
  rewrite Hp. simpl. by rewrite Hl.
Qed.

Lemma query_reaches_live_session_witness :
  reachable accept_any loop_reading /\
  m_pdalSession (world loop_reading) = Some 0%nat /\
  exists n s,
    sessions (world loop_reading) !! 0%nat = Some (n, s) /\
    query QNumPoints [] (world loop_reading) = (session_answer QNumPoints s, world loop_reading).
Proof.
  split; [apply loop_reading_reachable|]. split; [reflexivity|].
  apply (query_reaches_live_session accept_any loop_reading QNumPoints [] 0).
  - apply loop_reading_reachable.
  - reflexivity.
Defined.

(** ** What can crash *)

Lemma invoke_no_crash op args w : (invoke op args w).1 <> Crashed.
Proof.
  destruct op; simpl;
    unfold PdalBindings.create, PdalBindings.parse, PdalBindings.serialize,
      PdalBindings.doInitialize;
    (destruct (IsUndefined _ || negb (IsFunction _)); [done|]);
    try (destruct (nonempty (PdalBindings.doInitialize_errMsg args)));
    unfold errorCallback, Persistent_New, Call_, Dispose_, uv_queue_work,
      PdalBindings.new_CreateData, PdalBindings.new_SerializeData,
      shared_copy, shared_release; run; done.
Qed.

Lemma read_no_crash validate args w : (PdalBindings.read validate args w).1 <> Crashed.
Proof.
  destruct (validate (current_session w) args) as [msg fn|raster fn] eqn:Hv.
  - by rewrite (read_rejected _ _ _ _ _ Hv).
  - rewrite (read_accepted _ _ _ _ _ Hv).
    destruct (m_readCommands w !! next_readId w); [done|].
    by destruct (registry_alloc_fails w).
Qed.

Lemma Outcome_map_crashed {A B} (f : A -> B) o : Outcome_map f o = Crashed -> o = Crashed.
Proof. by destruct o. Qed.

(** X16: in every state the binding reaches, a step can crash in two ways
    only.  A query crashes when the binding has given up its session
    pointer (or when the session's own query does); the background phase
    of a create, parse or serialize request crashes when the request was
    queued by a binding without session.  No call, no read request and no
    completion ever crashes: no pointer is used after its target was
    deleted. *)
Theorem crashes_are_empty_pointers
    (validate : option PdalSession.t -> list Value -> Verdict)
    (L : Loop) (act : Action) :
  reachable validate L ->
  (step validate act L).1 = Crashed ->
  match act with
  | AQuery q args =>
      m_pdalSession (world L) = None \/
      exists s, current_session (world L) = Some s /\ session_answer q s = Crashed
  | AWork i eff run =>
      exists t, work_queue (world L) !! i = Some t /\ task_session t = None /\
                forall p, t <> ReadTask p
  | _ => False
  end.
Proof.
  intros HL Hcrash.
  pose proof (reachable_reads_consistent validate L HL) as HR.
  pose proof (reachable_sessions_counted validate L HL) as HS.
  destruct act as [op args|args|q args|args|i eff run|j];
    cbn [step in_world fst snd] in Hcrash.
  - apply Outcome_map_crashed in Hcrash. by apply invoke_no_crash in Hcrash.
  - discriminate.
  - apply Outcome_map_crashed in Hcrash. rewrite query_spec in Hcrash. simpl in Hcrash.
    destruct (m_pdalSession (world L)) as [a|] eqn:Hp; [right|by left].
    destruct (current_session (world L)) as [s|] eqn:Hs; [eauto|].
    destruct (counted_binding_live L a HS Hp) as [[n s] Hl].
    unfold current_session in Hs. rewrite Hp in Hs. simpl in Hs. by rewrite Hl in Hs.
  - apply Outcome_map_crashed in Hcrash. by apply read_no_crash in Hcrash.
  - destruct (work_queue (world L) !! i) as [t|] eqn:Hi; [|discriminate].
    exists t. split; [done|].
    assert (Hin : t ∈ pending L).
    { apply elem_of_app. left. apply list_elem_of_lookup. eauto. }
    set (w := with_work_queue (delete i) (world L)) in *.
    destruct (uv_work_sessions t eff run w) as (_ & Hses).
    destruct (uv_work_reads t eff run w) as (_ & _ & _ & _ & _ & Hcmd).
    change (sessions w) with (sessions (world L)) in Hses.
    change (commands w) with (commands (world L)) in Hcmd.
    destruct (PdalBindings.uv_work t eff run w) as [[t'|e|] w'] eqn:E; try discriminate.
    destruct t as [d|d|p].
    + destruct (task_session (CreateTask d)) as [a|] eqn:Ht; [|by split].
      destruct (counted_task_live L _ a HS Hin Ht) as [b Hb]. rewrite Hb in Hses.
      by destruct Hses as [(t'' & [=] & _) _].
    + destruct (task_session (SerializeTask d)) as [a|] eqn:Ht; [|by split].
      destruct (counted_task_live L _ a HS Hin Ht) as [b Hb]. rewrite Hb in Hses.
      by destruct Hses as [(t'' & [=] & _) _].
    + assert (Hlive : is_Some (commands (world L) !! p)).
      { apply (tasks_live L HR). apply list_elem_of_omap. by exists (ReadTask p). }
      destruct Hlive as [c Hc]. rewrite Hc in Hcmd. by destruct Hcmd as [[=] _].
  - destruct (finished L !! j) as [t|] eqn:Hj; [|discriminate]. simpl in Hcrash.
    destruct (uv_after_work_reads t (world L)) as (_ & _ & Ht).
    destruct t as [d|d|p].
    + destruct Ht as [Ht _]. rewrite Ht in Hcrash. discriminate.
    + destruct Ht as [Ht _]. rewrite Ht in Hcrash. discriminate.
    + assert (Hlive : is_Some (commands (world L) !! p)).
      { apply (tasks_live L HR). apply list_elem_of_omap. exists (ReadTask p).
        split; [|done]. apply elem_of_app. right. apply list_elem_of_lookup. eauto. }
      destruct Hlive as [c Hc]. rewrite Hc in Ht. destruct Ht as [Ht _].
      rewrite Ht in Hcrash. discriminate.
Qed.

Lemma loop_orphan_reachable : reachable accept_any loop_orphan.
Proof.
  apply (reachable_step accept_any (ACall OpCreate good_create_args)
           (step accept_any (ADestroy []) loop0).2).
  - apply (reachable_step accept_any (ADestroy []) loop0).
    + by apply (reachable_boot accept_any world0 0 session0).
    + vm_compute. discriminate.
  - vm_compute. discriminate.
Qed.

Lemma crashes_are_empty_pointers_witness :
  reachable accept_any loop_orphan /\
  (step accept_any (AWork 0 engine_ok run_ok) loop_orphan).1 = Crashed /\
  exists t, work_queue (world loop_orphan) !! 0%nat = Some t /\ task_session t = None /\
            forall p, t <> ReadTask p.
Proof.
  split; [apply loop_orphan_reachable|]. split; [vm_compute; reflexivity|].
  apply (crashes_are_empty_pointers accept_any loop_orphan (AWork 0 engine_ok run_ok)).
  - apply loop_orphan_reachable.
  - vm_compute; reflexivity.
Defined.

(** ** Calls and disposals *)

Lemma paired_app e1 h1 e2 h2 :
  paired e1 h1 -> paired e2 h2 -> paired (e1 ++ e2) (h1 ++ h2).
Proof.
  intros H1 H2. induction H2 as [|evs hs fn argv h H2 IH].
  - by rewrite !app_nil_r.
  - rewrite !app_assoc. by constructor.
Qed.

Lemma paired_one fn argv h : paired [Call fn argv; Dispose h] [h].
Proof. apply (paired_snoc [] []). constructor. Qed.

(** One step of the log: some callbacks complete, some fresh handles are
    made for requests that stay in flight. *)
Lemma callbacks_step L L' completed fresh evs :
  callbacks_paired L ->
  events (world L') = events (world L) ++ evs ->
  paired evs completed ->
  pending_handles L ++ fresh ≡ₚ completed ++ pending_handles L' ->
  NoDup fresh ->
  (forall h, h ∈ fresh -> (next_handle (world L) <= h < next_handle (world L'))%nat) ->
  (next_handle (world L) <= next_handle (world L'))%nat ->
  callbacks_paired L'.
Proof.
  intros (hs & Hp & Hnd & Hlt) Hev Hevs Hperm Hfresh Hbound Hle.
  exists (hs ++ completed). split; [rewrite Hev; by apply paired_app|].
  assert (Hall : (hs ++ completed) ++ pending_handles L'
                 ≡ₚ (hs ++ pending_handles L) ++ fresh).
  { rewrite <- !app_assoc. f_equiv. by rewrite Hperm. }
  split.
  - rewrite Hall. apply NoDup_app. split; [done|]. split; [|done].
    intros h Hh Hf. specialize (Hlt h Hh). specialize (Hbound h Hf). lia.
  - intros h Hh. rewrite Hall in Hh.
    apply elem_of_app in Hh as [Hh|Hh];
      [specialize (Hlt h Hh); lia | specialize (Hbound h Hh); lia].
Qed.

Lemma omap_task_handle_ext w w' (l : list Task) :
  (forall p, ReadTask p ∈ l ->
     (fun c => handle (callback c)) <$> commands w' !! p
     = (fun c => handle (callback c)) <$> commands w !! p) ->
  omap (task_handle w') l = omap (task_handle w) l.
Proof.
  induction l as [|t l IH]; intros H; [done|].
  assert (IH' : omap (task_handle w') l = omap (task_handle w) l)
    by (apply IH; intros p Hp; apply H; by apply elem_of_cons; right).
  assert (Ht : task_handle w' t = task_handle w t).
  { destruct t as [d|d|p]; try done. simpl. apply H. apply elem_of_cons. by left. }
  simpl. rewrite Ht. destruct (task_handle w t); [f_equal|]; exact IH'.
Qed.

Lemma handles_delete w (l : list Task) i t :
  l !! i = Some t ->
  omap (task_handle w) l ≡ₚ
    match task_handle w t with Some h => [h] | None => [] end
    ++ omap (task_handle w) (delete i l).
Proof.
  intros H. rewrite (delete_Permutation _ _ _ H) at 1. simpl.
  by destruct (task_handle w t).
Qed.

(** Create, parse and serialize and the log: nothing happens, or a
    validation error goes through a fresh handle at once, or a request is
    queued with a fresh handle. *)
Lemma invoke_callbacks op args w :
  commands (invoke op args w).2 = commands w /\
  ((events (invoke op args w).2 = events w /\
    work_queue (invoke op args w).2 = work_queue w /\
    next_handle (invoke op args w).2 = next_handle w) \/
   (exists fn argv,
      events (invoke op args w).2 = events w ++ [Call fn argv; Dispose (next_handle w)] /\
      work_queue (invoke op args w).2 = work_queue w /\
      next_handle (invoke op args w).2 = S (next_handle w)) \/
   (exists t,
      events (invoke op args w).2 = events w /\
      work_queue (invoke op args w).2 = work_queue w ++ [t] /\
      (forall w0, task_handle w0 t = Some (next_handle w)) /\
      next_handle (invoke op args w).2 = S (next_handle w))).
Proof.
  destruct op; simpl;
    unfold PdalBindings.create, PdalBindings.parse, PdalBindings.serialize,
      PdalBindings.doInitialize;
    (destruct (IsUndefined _ || negb (IsFunction _)); [by (split; [|left])|]);
    try (destruct (nonempty (PdalBindings.doInitialize_errMsg args)));
    unfold errorCallback, Persistent_New, Call_, Dispose_, uv_queue_work,
      PdalBindings.new_CreateData, PdalBindings.new_SerializeData,
      shared_copy, shared_release; run;
    (split; [done|]);
    first
      [ by left
      | right; left; eexists _, _; by rewrite <- app_assoc
      | right; right; eexists; by repeat split ].
Qed.

(** The background phase and the log: it calls nothing, and hands on the
    handle of the request. *)
Lemma uv_work_callbacks t eff run w :
  events (PdalBindings.uv_work t eff run w).2 = events w /\
  next_handle (PdalBindings.uv_work t eff run w).2 = next_handle w /\
  (forall q, (fun c => handle (callback c)) <$> commands (PdalBindings.uv_work t eff run w).2 !! q
             = (fun c => handle (callback c)) <$> commands w !! q) /\
  forall t', (PdalBindings.uv_work t eff run w).1 = Returned t' ->
             task_handle w t' = task_handle w t.
Proof.
  destruct t as [d|d|p]; simpl.
  - unfold PdalBindings.create_work, session_call.
    destruct (CreateData.pdalSession d) as [a|]; run; [|done].
    destruct (sessions w !! a) as [[n s]|]; simpl; [|done].
    destruct (raised eff); simpl; repeat split; by intros t' [= <-].
  - unfold PdalBindings.serialize_work, session_call.
    destruct (SerializeData.pdalSession d) as [a|]; run; [|done].
    destruct (sessions w !! a) as [[n s]|]; simpl; [|done].
    destruct (raised eff); simpl; repeat split; by intros t' [= <-].
  - destruct (commands w !! p) as [c|] eqn:Hc.
    + unfold mbind, M_bind. rewrite (read_work_spec _ _ _ _ Hc). simpl.
      split; [done|]. split; [done|].
      split; [|intros t' [= <-]; simpl; by rewrite Hc].
      intros q. destruct (decide (q = p)) as [->|Hne].
      * by rewrite lookup_insert_eq, Hc.
      * by rewrite lookup_insert_ne.
    + unfold PdalBindings.read_work, ReadCommand_run, deref. run. by rewrite Hc.
Qed.

(** The completion phase and the log: one call through the handle of the
    request and the disposal of that handle, or nothing at all if a read
    request has lost its command. *)
Lemma uv_after_work_callbacks t w :
  next_handle (PdalBindings.uv_after_work t w).2 = next_handle w /\
  match task_handle w t with
  | Some h => exists fn argv,
      events (PdalBindings.uv_after_work t w).2 = events w ++ [Call fn argv; Dispose h]
  | None => PdalBindings.uv_after_work t w = (Crashed, w)
  end.
Proof.
  destruct t as [d|d|p]; simpl.
  - split; [done|]. eexists _, _. by rewrite <- app_assoc.
  - split; [done|]. eexists _, _. by rewrite <- app_assoc.
  - destruct (commands w !! p) as [c|] eqn:Hc; simpl.
    + destruct (nonempty (errMsg c)) eqn:He.
      * rewrite (read_after_work_error _ _ _ Hc He). split; [done|]. by eexists _, _.
      * rewrite (read_after_work_success _ _ _ Hc He). split; [done|]. by eexists _, _.
    + unfold PdalBindings.read_after_work, deref. run. by rewrite Hc.
Qed.

Lemma pending_handles_eq L L' :
  pending L' = pending L ->
  (forall q, ReadTask q ∈ pending L ->
     (fun c => handle (callback c)) <$> commands (world L') !! q
     = (fun c => handle (callback c)) <$> commands (world L) !! q) ->
  pending_handles L' = pending_handles L.
Proof.
  intros Hp Hc. unfold pending_handles. rewrite Hp. by apply omap_task_handle_ext.
Qed.

Lemma read_task_live L q :
  reads_consistent L -> ReadTask q ∈ pending L -> is_Some (commands (world L) !! q).
Proof.
  intros HR Hq. apply (tasks_live L HR). apply list_elem_of_omap. by exists (ReadTask q).
Qed.

Ltac log_side :=
  try done; try lia; try (by constructor); try apply paired_one;
  try apply NoDup_singleton;
  try (by intros ? ?%elem_of_nil);
  try (intros ? ?%list_elem_of_singleton; subst; lia).

Ltac same_handles L0 :=
  match goal with
  | |- context [pending_handles ?L'] =>
      lazymatch L' with
      | L0 => fail
      | _ => replace (pending_handles L') with (pending_handles L0);
             [|symmetry; apply pending_handles_eq]
      end
  end.

Ltac log_step L0 done_ new_ evs_ :=
  apply callbacks_step with (L := L0) (completed := done_) (fresh := new_) (evs := evs_).

(** Every step that does not crash keeps the log paired. *)
Lemma step_callbacks_paired validate act L :
  reads_consistent L -> callbacks_paired L ->
  (step validate act L).1 <> Crashed ->
  callbacks_paired (step validate act L).2.
Proof.
  intros HR HC Hok. destruct act as [op args|args|q args|args|i eff run|j];
    cbn [step in_world fst snd] in *.
  - destruct (invoke_callbacks op args (world L))
      as [Hc [(He & Hq & Hn)|[(fn & argv & He & Hq & Hn)|(t & He & Hq & Ht & Hn)]]].
    + log_step L (@nil nat) (@nil nat) (@nil Event); simpl;
        rewrite ?He, ?Hn, ?app_nil_r; log_side.
      same_handles L; [done| |by intros; simpl; rewrite Hc].
      unfold pending; simpl. by rewrite Hq.
    + log_step L [next_handle (world L)] [next_handle (world L)]
        [Call fn argv; Dispose (next_handle (world L))]; simpl;
        rewrite ?He, ?Hn; log_side.
      same_handles L; [apply (Permutation_app_comm _ [_])| |
        by intros; simpl; rewrite Hc].
      unfold pending; simpl. by rewrite Hq.
    + log_step L (@nil nat) [next_handle (world L)] (@nil Event); simpl;
        rewrite ?He, ?Hn, ?app_nil_r; log_side.
      unfold pending_handles, pending; simpl. rewrite Hq.
      rewrite (omap_task_handle_ext (world L) (invoke op args (world L)).2)
        by (by intros; rewrite Hc).
      rewrite !omap_app. simpl. rewrite (Ht (world L)). simpl.
      rewrite <- !app_assoc. f_equiv. apply Permutation_app_comm.
  - log_step L (@nil nat) (@nil nat) (@nil Event); simpl; rewrite ?app_nil_r; log_side.
  - log_step L (@nil nat) (@nil nat) (@nil Event); simpl;
      rewrite ?query_world, ?app_nil_r; log_side.
  - destruct (validate (current_session (world L)) args) as [msg fn|raster fn] eqn:Hv.
    + unfold in_world. rewrite (read_rejected _ _ _ _ _ Hv). simpl.
      destruct fn as [f|].
      * log_step L [next_handle (world L)] [next_handle (world L)]
          [Call f [Str msg]; Dispose (next_handle (world L))]; simpl; log_side.
        apply (Permutation_app_comm _ [_]).
      * log_step L (@nil nat) (@nil nat) (@nil Event); simpl; rewrite ?app_nil_r;
          log_side.
    + unfold in_world. rewrite (read_accepted _ _ _ _ _ Hv).
      assert (Hold : forall q, ReadTask q ∈ pending L ->
                (fun c => handle (callback c)) <$>
                  (<[next_addr (world L) := fresh_command (world L) raster fn]>
                     (commands (world L))) !! q
                = (fun c => handle (callback c)) <$> commands (world L) !! q).
      { intros q Hq. rewrite lookup_insert_ne; [done|]. intros <-.
        destruct (read_task_live L _ HR Hq) as [c Hc].
        rewrite (commands_below L HR) in Hc by lia. discriminate. }
      assert (Hdisp : callbacks_paired
                {| world := dispatched (world L) raster fn; finished := finished L |}).
      { log_step L (@nil nat) [next_handle (world L)] (@nil Event); simpl;
          rewrite ?app_nil_r; log_side.
        unfold pending_handles, pending; simpl.
        rewrite !omap_app. simpl. rewrite lookup_insert_eq. simpl.
        rewrite (omap_task_handle_ext (world L) (dispatched (world L) raster fn)
                   (work_queue (world L)))
          by (intros q Hq; simpl; apply Hold, elem_of_app; by left).
        rewrite (omap_task_handle_ext (world L) (dispatched (world L) raster fn)
                   (finished L))
          by (intros q Hq; simpl; apply Hold, elem_of_app; by right).
        rewrite <- !app_assoc. f_equiv. apply Permutation_app_comm. }
      destruct (m_readCommands (world L) !! next_readId (world L)) as [p0|];
        [exact Hdisp|destruct (registry_alloc_fails (world L)); [|exact Hdisp]].
      simpl. log_step L (@nil nat) (@nil nat) (@nil Event); simpl;
        rewrite ?app_nil_r; log_side.
      by same_handles L.
  - destruct (work_queue (world L) !! i) as [t|] eqn:Hi; [|done].
    set (w := with_work_queue (delete i) (world L)) in *.
    destruct (uv_work_reads t eff run w) as (_ & _ & Hq & Hnt & _).
    destruct (uv_work_callbacks t eff run w) as (He & Hn & Hh & Ht).
    change (work_queue w) with (delete i (work_queue (world L))) in Hq.
    destruct (PdalBindings.uv_work t eff run w) as [[t'|e|] w'] eqn:E;
      cbn [fst snd] in *; [|by destruct (Hnt e)|done].
    log_step L (@nil nat) (@nil nat) (@nil Event); simpl;
      rewrite ?He, ?Hn, ?app_nil_r; log_side.
    unfold pending_handles, pending; simpl. rewrite Hq.
    rewrite (omap_task_handle_ext (world L) w') by (intros; apply Hh).
    rewrite !omap_app, (handles_delete _ _ _ _ Hi). simpl.
    specialize (Ht t' eq_refl).
    change (task_handle (world L) t' = task_handle (world L) t) in Ht.
    rewrite Ht.
    destruct (task_handle (world L) t) as [h|]; simpl; rewrite ?app_nil_r; [|done].
    rewrite app_assoc. apply (Permutation_app_comm [h]).
  - destruct (finished L !! j) as [t|] eqn:Hj; [|done]. simpl in *.
    destruct (uv_after_work_callbacks t (world L)) as (Hn & He).
    destruct (uv_after_work_reads t (world L)) as (_ & Hq & Hcmd).
    destruct (task_handle (world L) t) as [h|] eqn:Hh;
      [|by rewrite He in Hok].
    destruct He as (fn & argv & He).
    assert (Hkeep : forall q, ReadTask q ∈ work_queue (world L) ++ delete j (finished L) ->
              (fun c => handle (callback c)) <$>
                commands (PdalBindings.uv_after_work t (world L)).2 !! q
              = (fun c => handle (callback c)) <$> commands (world L) !! q).
    { intros q Hq'. destruct t as [d|d|p].
      - destruct Hcmd as (_ & -> & _). done.
      - destruct Hcmd as (_ & -> & _). done.
      - simpl in Hh. destruct (commands (world L) !! p) as [c|] eqn:Hc; [|done].
        destruct Hcmd as [_ Hcmd].
        destruct (nonempty (errMsg c)); destruct Hcmd as [-> _]; [|done].
        rewrite lookup_delete_ne; [done|]. intros <-.
        pose proof (tasks_distinct L HR) as Hnd. unfold pending in Hnd.
        rewrite read_tasks_app, (read_tasks_delete _ _ _ Hj) in Hnd. simpl in Hnd.
        apply NoDup_app in Hnd as (_ & Hdis & Hnd).
        apply NoDup_cons in Hnd as [Hnin _].
        apply elem_of_app in Hq' as [Hq'|Hq'].
        + apply (Hdis p); [apply list_elem_of_omap; by exists (ReadTask p)|].
          apply elem_of_cons. by left.
        + apply Hnin. apply list_elem_of_omap. by exists (ReadTask p). }
    log_step L [h] (@nil nat) [Call fn argv; Dispose h]; simpl;
      rewrite ?He, ?Hn, ?app_nil_r; log_side.
    unfold pending_handles, pending; simpl. rewrite Hq.
    rewrite (omap_task_handle_ext (world L) _ _ Hkeep).
    rewrite !omap_app, (handles_delete _ _ _ _ Hj), Hh. simpl.
    symmetry. apply Permutation_middle.
Qed.

Lemma boot_callbacks_paired w :
  work_queue w = [] -> events w = [] ->
  callbacks_paired {| world := w; finished := [] |}.
Proof.
  intros Hq He. exists []. unfold pending_handles, pending. simpl. rewrite Hq, He.
  simpl. split; [constructor|]. split; [constructor|]. by intros h ?%elem_of_nil.
Qed.

Lemma reachable_callbacks_paired validate L :
  reachable validate L -> callbacks_paired L.
Proof.
  induction 1 as [w a s Hs Hc Hm Hr Hq He|act L HL IH Hok].
  - by apply boot_callbacks_paired.
  - apply step_callbacks_paired; [by eapply reachable_reads_consistent|done|done].
Qed.

Lemma paired_disposed evs hs : paired evs hs -> disposed evs = hs.
Proof.
  induction 1 as [|evs hs fn argv h _ IH]; [done|].
  unfold disposed in *. by rewrite omap_app, IH.
Qed.

Lemma paired_calls evs hs : paired evs hs -> length (calls evs) = length hs.
Proof.
  induction 1 as [|evs hs fn argv h _ IH]; [done|].
  unfold calls in *. rewrite List.filter_app, !length_app, IH. done.
Qed.

(** X17: in every state the binding reaches, no persistent handle has been
    disposed of twice, and no handle that a request in flight still holds
    has been disposed of; every handle disposed of or in flight was handed
    out before, and the callbacks have been called as many times as handles
    have been disposed of.  The order of the entries of the log plays no
    part in the statement. *)
Theorem handles_disposed_once
    (validate : option PdalSession.t -> list Value -> Verdict) (L : Loop) :
  reachable validate L ->
  NoDup (disposed (events (world L)) ++ pending_handles L) /\
  (forall h, h ∈ disposed (events (world L)) ++ pending_handles L ->
             (h < next_handle (world L))%nat) /\
  length (calls (events (world L))) = length (disposed (events (world L))).
Proof.
  intros HL. destruct (reachable_callbacks_paired _ _ HL) as (hs & Hp & Hnd & Hlt).
  rewrite (paired_disposed _ _ Hp). split; [done|]. split; [done|].
  by apply paired_calls.
Qed.

Lemma loop_served_reachable : reachable accept_any loop_served.
Proof.
  unfold loop_served.
  repeat (apply reachable_step; [|vm_compute; discriminate]).
  by apply (reachable_boot accept_any world0 0 session0).
Qed.

Lemma handles_disposed_once_witness :
  reachable accept_any loop_served /\
  NoDup (disposed (events (world loop_served)) ++ pending_handles loop_served) /\
  (forall h, h ∈ disposed (events (world loop_served)) ++ pending_handles loop_served ->
             (h < next_handle (world loop_served))%nat) /\
  length (calls (events (world loop_served)))
    = length (disposed (events (world loop_served))).
Proof.
  split; [apply loop_served_reachable|].
  apply (handles_disposed_once accept_any loop_served).
  apply loop_served_reachable.
Defined.
